(** * Quiz application: question processing and scoring (src/utils/api.ts)

    A shallow embedding of the pure functions of [src/utils/api.ts]
    ([decodeHtmlEntities], [shuffleArray], [processQuizQuestions],
    [validateEmail], [calculateScore], [createQuizResults]) and of the data
    they work on ([src/types/quiz.ts]), followed by the properties the
    specification states about them. *)

From Stdlib Require Import ZArith NArith List Ascii String Lia Bool.
From Stdlib Require Import Floats.SpecFloat.
From Stdlib Require Import Sorting.Permutation.
From Stdlib Require DecimalNat DecimalFacts.
From stdpp Require Import base list.

Import ListNotations.
Local Open Scope nat_scope.
Local Open Scope list_scope.

(** ** JavaScript strings

    A JavaScript string is a sequence of UTF-16 code units.  Code units are
    kept as [N]; the regular expressions of the source have no [u] flag, so
    they too work on code units. *)

Module JsString.

Abbreviation char16 := N.
Abbreviation jsstring := (list N).

(** The code units of an ASCII literal of the source. *)
Fixpoint str (s : string) : jsstring :=
  match s with
  | EmptyString => []
  | String c s' => N_of_ascii c :: str s'
  end.

(** [a === b] on strings. *)
Fixpoint str_eqb (a b : jsstring) : bool :=
  match a, b with
  | [], [] => true
  | x :: a', y :: b' => N.eqb x y && str_eqb a' b'
  | _, _ => false
  end.

(** [prefixb p s]: the literal [p] matches at the start of [s]. *)
Fixpoint prefixb (p s : jsstring) : bool :=
  match p with
  | [] => true
  | x :: p' =>
      match s with
      | [] => false
      | y :: s' => N.eqb x y && prefixb p' s'
      end
  end.

End JsString.
Import JsString.

(** ** JavaScript numbers

    A JavaScript number is an IEEE 754 binary64 value.  The arithmetic of
    [calculateScore] is carried out on [spec_float] with the binary64
    parameters, so that the rounding of every operation is the one the
    host performs. *)

Module JsNumber.

Abbreviation number := spec_float.

Definition prec : Z := 53.
Definition emax : Z := 1024.

(** The number with the value of the integer [z] (exact below 2^53). *)
Definition of_Z (z : Z) : number := binary_normalize prec emax z 0 false.
Definition of_nat (n : nat) : number := of_Z (Z.of_nat n).

(** [x / y] and [x * y]. *)
Definition div (x y : number) : number := SFdiv prec emax x y.
Definition mul (x y : number) : number := SFmul prec emax x y.

(** [floor (v + 1/2)] for the real [v = m * 2^e], computed exactly. *)
Definition round_half_up_dyadic (m e : Z) : Z :=
  match e with
  | Zneg p => (2 * m + 2 ^ Zpos p) / 2 ^ (Zpos p + 1)
  | _ => m * 2 ^ e
  end%Z.

(** [Math.round]: the integer nearest to [x], a tie going towards
    +infinity; zeros, infinities and NaN are returned as they are, and a
    result of magnitude zero keeps the sign of [x]. *)
Definition Math_round (x : number) : number :=
  match x with
  | S754_finite s m e =>
      let n := round_half_up_dyadic (if s then Z.neg m else Z.pos m) e in
      if (n =? 0)%Z then S754_zero s else of_Z n
  | _ => x
  end.

End JsNumber.

(** ** Data model ([src/types/quiz.ts])

    Each interface is a record in a module of its name, so that the fields
    keep the names of the source. *)

(** [QuizQuestion]: a question as the trivia API delivers it. *)
Module QuizQuestion.
Record t := mk {
  category : jsstring;
  type : jsstring;
  difficulty : jsstring;
  question : jsstring;
  correct_answer : jsstring;
  incorrect_answers : list jsstring
}.
End QuizQuestion.

(** [ProcessedQuestion]; the optional [user_answer] is [None] when it is
    [undefined]. *)
Module ProcessedQuestion.
Record t := mk {
  id : nat;
  category : jsstring;
  type : jsstring;
  difficulty : jsstring;
  question : jsstring;
  correct_answer : jsstring;
  options : list jsstring;
  user_answer : option jsstring;
  is_answered : bool;
  is_visited : bool
}.
End ProcessedQuestion.

(** [QuizSession], with the fields [createQuizResults] reads. *)
Module QuizSession.
Record t := mk {
  user_email : jsstring;
  questions : list ProcessedQuestion.t;
  time_remaining : Z;
  total_questions : nat
}.
End QuizSession.

Module QuestionResult.
Record t := mk {
  question_id : nat;
  question : jsstring;
  user_answer : jsstring;
  correct_answer : jsstring;
  is_correct : bool;
  category : jsstring;
  difficulty : jsstring
}.
End QuestionResult.

(** [QuizResults]; a [Date] is kept as its time value. *)
Module QuizResults.
Record t := mk {
  user_email : jsstring;
  score : spec_float;
  total_questions : nat;
  correct_answers : nat;
  incorrect_answers : nat;
  unanswered_questions : nat;
  time_taken : Z;
  completion_date : Z;
  question_results : list QuestionResult.t
}.
End QuizResults.

(** ** [String.prototype.replace] with a global literal pattern

    [scan rules skip s] reads [s] from left to right.  Where a pattern of
    [rules] matches (the first rule that does, when several do) its
    replacement is emitted and the scan goes on behind the match; elsewhere
    the code unit is copied.  [skip] counts the code units of a match still
    to be passed over.  Patterns are not empty. *)

Definition rule : Type := jsstring * jsstring.

Fixpoint find_rule (rules : list rule) (s : jsstring) : option rule :=
  match rules with
  | [] => None
  | (p, r) :: rules' => if prefixb p s then Some (p, r) else find_rule rules' s
  end.

Fixpoint scan (rules : list rule) (skip : nat) (s : jsstring) : jsstring :=
  match s with
  | [] => []
  | c :: s' =>
      match skip with
      | S k => scan rules k s'
      | O =>
          match find_rule rules s with
          | Some (p, r) => r ++ scan rules (length p - 1) s'
          | None => c :: scan rules 0 s'
          end
      end
  end.

(** [text.replace(/p/g, r)] for a literal [p] and an [r] without [$]. *)
Definition replace_all (p r : jsstring) (text : jsstring) : jsstring :=
  scan [(p, r)] 0 text.

(** ** [decodeHtmlEntities] *)

Definition decodeHtmlEntities (text : jsstring) : jsstring :=
  let text := replace_all (str "&amp;") (str "&") text in
  let text := replace_all (str "&lt;") (str "<") text in
  let text := replace_all (str "&gt;") (str ">") text in
  let text := replace_all (str "&quot;") [34%N] text in
  let text := replace_all (str "&#039;") (str "'") text in
  let text := replace_all (str "&apos;") (str "'") text in
  let text := replace_all (str "&nbsp;") (str " ") text in
  let text := replace_all (str "&copy;") [169%N] text in
  let text := replace_all (str "&reg;") [174%N] text in
  let text := replace_all (str "&trade;") [8482%N] text in
  let text := replace_all (str "&hellip;") (str "...") text in
  let text := replace_all (str "&mdash;") [8212%N] text in
  let text := replace_all (str "&ndash;") [8211%N] text in
  let text := replace_all (str "&lsquo;") (str "'") text in
  let text := replace_all (str "&rsquo;") (str "'") text in
  let text := replace_all (str "&ldquo;") [34%N] text in
  replace_all (str "&rdquo;") [34%N] text.

(** The seventeen replacements of [decodeHtmlEntities], in its order. *)
Definition entity_table : list rule :=
  [ (str "&amp;", str "&"); (str "&lt;", str "<"); (str "&gt;", str ">");
    (str "&quot;", [34%N]); (str "&#039;", str "'"); (str "&apos;", str "'");
    (str "&nbsp;", str " "); (str "&copy;", [169%N]); (str "&reg;", [174%N]);
    (str "&trade;", [8482%N]); (str "&hellip;", str "...");
    (str "&mdash;", [8212%N]); (str "&ndash;", [8211%N]);
    (str "&lsquo;", str "'"); (str "&rsquo;", str "'");
    (str "&ldquo;", [34%N]); (str "&rdquo;", [34%N]) ].

(** The replacements applied one after the other, each to the whole
    result of the one before. *)
Definition replace_chain (rules : list rule) (text : jsstring) : jsstring :=
  fold_left (fun t pr => replace_all (fst pr) (snd pr) t) rules text.

(** The replacements applied together in one pass over the input. *)
Definition replace_one_pass (rules : list rule) (text : jsstring) : jsstring :=
  scan rules 0 text.

(** [p] occurs in [s] as a substring. *)
Definition occurs (p s : jsstring) : Prop :=
  exists a b, s = a ++ p ++ b.

(** The rest of each entity of the table behind [&amp;]: [lt;], [gt;], ... *)
Definition later_entity_tails : list jsstring :=
  map (fun pr => tl (fst pr)) (tl entity_table).

(** [s] holds a doubly encoded entity: [&amp;] followed by the rest of a
    later entity of the table, as in [&amp;lt;]. *)
Definition doubly_encoded (s : jsstring) : Prop :=
  exists t, In t later_entity_tails /\ occurs (str "&amp;" ++ t) s.

(** The table in the words of the specification: each listed entity with
    the character it names in HTML.  It differs from [entity_table] at
    [&nbsp;], [&hellip;] and the four curly quotes. *)
Definition html_entity_table : list rule :=
  [ (str "&amp;", str "&"); (str "&lt;", str "<"); (str "&gt;", str ">");
    (str "&quot;", [34%N]); (str "&#039;", str "'"); (str "&apos;", str "'");
    (str "&nbsp;", [160%N]); (str "&copy;", [169%N]); (str "&reg;", [174%N]);
    (str "&trade;", [8482%N]); (str "&hellip;", [8230%N]);
    (str "&mdash;", [8212%N]); (str "&ndash;", [8211%N]);
    (str "&lsquo;", [8216%N]); (str "&rsquo;", [8217%N]);
    (str "&ldquo;", [8220%N]); (str "&rdquo;", [8221%N]) ].

(** ** The random source

    [Math.random()] returns a number [u] with [0 <= u < 1]; it is kept as
    the fraction [num / den].  The source of randomness is the sequence of
    the values still to come, and a computation that draws from it passes
    the rest on.  [Math.floor(u * n)] is taken on the exact product: the
    host's rounded product of a number below 1 with an array length also
    stays below that length, so the index lies in [0 .. n-1] either way. *)

Record unit_interval := mk_unit {
  num : nat;
  den : nat;
  num_lt_den : num < den
}.

Definition Rng : Type := nat -> unit_interval.

Definition Rand (A : Type) : Type := Rng -> A * Rng.

Definition ret {A} (a : A) : Rand A := fun g => (a, g).

Definition bind {A B} (c : Rand A) (k : A -> Rand B) : Rand B :=
  fun g => let (a, g') := c g in k a g'.

Notation "'let*' x := c 'in' k" := (bind c (fun x => k))
  (at level 10, x name, c at level 100, k at level 200).

Definition Math_random : Rand unit_interval :=
  fun g => (g 0, fun k => g (S k)).

(** [Math.floor(u * n)]. *)
Definition floor_mul (u : unit_interval) (n : nat) : nat :=
  (num u * n) / den u.

(** ** [shuffleArray] *)

(** [[a[i], a[j]] = [a[j], a[i]]] for indices inside the array (the loop
    of [shuffleArray] produces no others). *)
Definition swap {T} (i j : nat) (a : list T) : list T :=
  match a !! i, a !! j with
  | Some x, Some y => <[j := x]> (<[i := y]> a)
  | _, _ => a
  end.

(** The loop [for (let i = ...; i > 0; i--)], entered at [i]. *)
Fixpoint shuffle_loop {T} (i : nat) (shuffled : list T) : Rand (list T) :=
  match i with
  | O => ret shuffled
  | S i' =>
      let* u := Math_random in
      let j := floor_mul u (i + 1) in
      shuffle_loop i' (swap i j shuffled)
  end.

Definition shuffleArray {T} (array : list T) : Rand (list T) :=
  let shuffled := array in
  shuffle_loop (length shuffled - 1) shuffled.

(** The indices [j] the loop entered at [i] draws, first draw first. *)
Fixpoint drawn_indices (i : nat) (g : Rng) : list nat :=
  match i with
  | O => []
  | S i' => floor_mul (g 0) (i + 1) :: drawn_indices i' (fun k => g (S k))
  end.

(** The loop of [shuffleArray] run on given indices instead of draws. *)
Fixpoint shuffle_with {T} (i : nat) (js : list nat) (shuffled : list T) : list T :=
  match i, js with
  | S i', j :: js' => shuffle_with i' js' (swap i j shuffled)
  | _, _ => shuffled
  end.

(** The index vectors the loop entered at [i] can draw: one index in
    [0 .. i], then one in [0 .. i-1], ..., down to one in [0 .. 1]. *)
Fixpoint index_vectors (i : nat) : list (list nat) :=
  match i with
  | O => [[]]
  | S i' => flat_map (fun j => map (cons j) (index_vectors i')) (seq 0 (i + 1))
  end.

(** ** [processQuizQuestions] *)

(** The callback of [questions.map]. *)
Definition processQuestion (question : QuizQuestion.t) (index : nat)
  : Rand ProcessedQuestion.t :=
  let decodedQuestion := decodeHtmlEntities (QuizQuestion.question question) in
  let decodedCorrectAnswer := decodeHtmlEntities (QuizQuestion.correct_answer question) in
  let decodedIncorrectAnswers := map decodeHtmlEntities (QuizQuestion.incorrect_answers question) in
  let options := decodedCorrectAnswer :: decodedIncorrectAnswers in
  let* shuffledOptions := shuffleArray options in
  ret {| ProcessedQuestion.id := index + 1;
         ProcessedQuestion.category := decodeHtmlEntities (QuizQuestion.category question);
         ProcessedQuestion.type := QuizQuestion.type question;
         ProcessedQuestion.difficulty := QuizQuestion.difficulty question;
         ProcessedQuestion.question := decodedQuestion;
         ProcessedQuestion.correct_answer := decodedCorrectAnswer;
         ProcessedQuestion.options := shuffledOptions;
         ProcessedQuestion.user_answer := None;
         ProcessedQuestion.is_answered := false;
         ProcessedQuestion.is_visited := false |}.

(** [array.map((x, index) => f x index)], from [index] on, the calls made
    in the order of the array. *)
Fixpoint map_indexed {A B} (f : A -> nat -> Rand B) (index : nat) (array : list A)
  : Rand (list B) :=
  match array with
  | [] => ret []
  | x :: rest =>
      let* y := f x index in
      let* ys := map_indexed f (S index) rest in
      ret (y :: ys)
  end.

Definition processQuizQuestions (questions : list QuizQuestion.t)
  : Rand (list ProcessedQuestion.t) :=
  map_indexed processQuestion 0 questions.

(** The option list before it is shuffled. *)
Definition unshuffled_options (question : QuizQuestion.t) : list jsstring :=
  decodeHtmlEntities (QuizQuestion.correct_answer question)
    :: map decodeHtmlEntities (QuizQuestion.incorrect_answers question).

(** How often [x] occurs in a list of strings. *)
Definition occurrences (x : jsstring) (l : list jsstring) : nat :=
  length (List.filter (str_eqb x) l).

(** ** Regular expressions and [validateEmail]

    The pattern of [validateEmail] uses character classes, concatenation
    and [+] between the anchors [^] and [$]; for such a pattern
    [RegExp.prototype.test] answers whether the whole string is in its
    language.  The matcher takes the derivative of the pattern by each code
    unit in turn. *)

Inductive regex : Type :=
| Void : regex
| Eps : regex
| Cls : (char16 -> bool) -> regex
| Cat : regex -> regex -> regex
| Alt : regex -> regex -> regex
| Star : regex -> regex.

(** [r+]. *)
Definition Plus (r : regex) : regex := Cat r (Star r).

(** A literal code unit. *)
Definition Lit (c : char16) : regex := Cls (N.eqb c).

Fixpoint nullable (r : regex) : bool :=
  match r with
  | Void => false
  | Eps => true
  | Cls _ => false
  | Cat r1 r2 => nullable r1 && nullable r2
  | Alt r1 r2 => nullable r1 || nullable r2
  | Star _ => true
  end.

Fixpoint deriv (c : char16) (r : regex) : regex :=
  match r with
  | Void => Void
  | Eps => Void
  | Cls f => if f c then Eps else Void
  | Cat r1 r2 =>
      if nullable r1 then Alt (Cat (deriv c r1) r2) (deriv c r2)
      else Cat (deriv c r1) r2
  | Alt r1 r2 => Alt (deriv c r1) (deriv c r2)
  | Star r1 => Cat (deriv c r1) (Star r1)
  end.

(** [/^r$/.test(s)]. *)
Fixpoint test_anchored (r : regex) (s : jsstring) : bool :=
  match s with
  | [] => nullable r
  | c :: s' => test_anchored (deriv c r) s'
  end.

(** The language of a pattern. *)
Inductive matches : regex -> jsstring -> Prop :=
| m_eps : matches Eps []
| m_cls f c : f c = true -> matches (Cls f) [c]
| m_cat r1 r2 s1 s2 : matches r1 s1 -> matches r2 s2 -> matches (Cat r1 r2) (s1 ++ s2)
| m_alt_l r1 r2 s : matches r1 s -> matches (Alt r1 r2) s
| m_alt_r r1 r2 s : matches r2 s -> matches (Alt r1 r2) s
| m_star_nil r : matches (Star r) []
| m_star_cons r s1 s2 : matches r s1 -> matches (Star r) s2 -> matches (Star r) (s1 ++ s2).

(** The class [\s] of ECMAScript: white space and line terminators. *)
Definition is_space (c : char16) : bool :=
  ((9 <=? c) && (c <=? 13) || (c =? 32) || (c =? 160) || (c =? 5760)
   || (8192 <=? c) && (c <=? 8202) || (c =? 8232) || (c =? 8233)
   || (c =? 8239) || (c =? 8287) || (c =? 12288) || (c =? 65279))%N.

Definition at_sign : char16 := 64%N.
Definition full_stop : char16 := 46%N.

(** The class [[^\s@]]. *)
Definition not_space_not_at (c : char16) : bool :=
  negb (is_space c || (c =? at_sign)%N).

(** [/^[^\s@]+@[^\s@]+\.[^\s@]+$/], without its anchors. *)
Definition emailRegex : regex :=
  Cat (Plus (Cls not_space_not_at))
    (Cat (Lit at_sign)
       (Cat (Plus (Cls not_space_not_at))
          (Cat (Lit full_stop)
             (Plus (Cls not_space_not_at))))).

Definition validateEmail (email : jsstring) : bool :=
  test_anchored emailRegex email.

(** ** [calculateScore] *)

(** [q.user_answer === q.correct_answer]: [undefined] equals no string. *)
Definition answer_is_correct (q : ProcessedQuestion.t) : bool :=
  match ProcessedQuestion.user_answer q with
  | Some u => str_eqb u (ProcessedQuestion.correct_answer q)
  | None => false
  end.

Definition calculateScore (questions : list ProcessedQuestion.t) : spec_float :=
  let answeredQuestions := List.filter ProcessedQuestion.is_answered questions in
  let correctAnswers := List.filter answer_is_correct answeredQuestions in
  if Nat.eqb (length answeredQuestions) 0 then JsNumber.of_Z 0
  else
    JsNumber.Math_round
      (JsNumber.mul
         (JsNumber.div (JsNumber.of_nat (length correctAnswers))
                       (JsNumber.of_nat (length answeredQuestions)))
         (JsNumber.of_Z 100)).

(** The two counts of the specification: the questions whose
    [is_answered] flag is set, and those of them whose answer is the
    correct one. *)
Definition answered_count (questions : list ProcessedQuestion.t) : nat :=
  length (List.filter ProcessedQuestion.is_answered questions).

Definition correct_count (questions : list ProcessedQuestion.t) : nat :=
  length (List.filter
            (fun q => ProcessedQuestion.is_answered q && answer_is_correct q)
            questions).

(** [round (100 * correct / answered)] on exact rationals, a tie going up
    (for whole percentages a tie is an odd number of halves, which rounding
    to even also takes up every second time). *)
Definition round_percent (correct answered : nat) : Z :=
  ((2 * 100 * Z.of_nat correct + Z.of_nat answered) / (2 * Z.of_nat answered))%Z.

(** The same with a tie going to the even neighbour. *)
Definition round_percent_even (correct answered : nat) : Z :=
  let n := (100 * Z.of_nat correct)%Z in
  let d := Z.of_nat answered in
  let q := (n / d)%Z in
  let r := (n mod d)%Z in
  if (2 * r <? d)%Z then q
  else if (d <? 2 * r)%Z then (q + 1)%Z
  else if Z.even q then q else (q + 1)%Z.

(** The score of [calculateScore] as a function of the two counts. *)
Definition score_of_counts (correct answered : nat) : spec_float :=
  if Nat.eqb answered 0 then JsNumber.of_Z 0
  else
    JsNumber.Math_round
      (JsNumber.mul
         (JsNumber.div (JsNumber.of_nat correct) (JsNumber.of_nat answered))
         (JsNumber.of_Z 100)).

(** Equality test on numbers that are not NaN or infinite. *)
Definition sf_eqb (x y : spec_float) : bool :=
  match x, y with
  | S754_zero a, S754_zero b => Bool.eqb a b
  | S754_finite a m e, S754_finite b m' e' =>
      Bool.eqb a b && Pos.eqb m m' && Z.eqb e e'
  | _, _ => false
  end.

(** All pairs of counts with [correct <= answered < bound], checked for
    [score_of_counts] giving the exactly rounded percentage. *)
Definition scores_exact_below (bound : nat) : bool :=
  forallb
    (fun a =>
       forallb
         (fun c => sf_eqb (score_of_counts c a) (JsNumber.of_Z (round_percent c a)))
         (seq 0 (S a)))
    (seq 1 (bound - 1)).

(** ** [createQuizResults] and its caller [handleFinishQuiz] *)

Definition not_answered : jsstring := str "Not answered".

(** [q.user_answer || 'Not answered']: [undefined] and the empty string
    are falsy. *)
Definition or_not_answered (u : option jsstring) : jsstring :=
  match u with
  | Some (c :: s) => c :: s
  | _ => not_answered
  end.

(** The callback of [session.questions.map]. *)
Definition questionResult (q : ProcessedQuestion.t) : QuestionResult.t :=
  {| QuestionResult.question_id := ProcessedQuestion.id q;
     QuestionResult.question := ProcessedQuestion.question q;
     QuestionResult.user_answer := or_not_answered (ProcessedQuestion.user_answer q);
     QuestionResult.correct_answer := ProcessedQuestion.correct_answer q;
     QuestionResult.is_correct := answer_is_correct q;
     QuestionResult.category := ProcessedQuestion.category q;
     QuestionResult.difficulty := ProcessedQuestion.difficulty q |}.

(** [r.user_answer === 'Not answered']. *)
Definition recorded_not_answered (r : QuestionResult.t) : bool :=
  str_eqb (QuestionResult.user_answer r) not_answered.

(** [createQuizResults(session)], with the value [now] of [new Date()]. *)
Definition createQuizResults (session : QuizSession.t) (now : Z) : QuizResults.t :=
  let questionResults := map questionResult (QuizSession.questions session) in
  let correctAnswers := length (List.filter QuestionResult.is_correct questionResults) in
  let incorrectAnswers :=
    length (List.filter
              (fun r => negb (QuestionResult.is_correct r) && negb (recorded_not_answered r))
              questionResults) in
  let unansweredQuestions := length (List.filter recorded_not_answered questionResults) in
  {| QuizResults.user_email := QuizSession.user_email session;
     QuizResults.score := calculateScore (QuizSession.questions session);
     QuizResults.total_questions := QuizSession.total_questions session;
     QuizResults.correct_answers := correctAnswers;
     QuizResults.incorrect_answers := incorrectAnswers;
     QuizResults.unanswered_questions := unansweredQuestions;
     QuizResults.time_taken :=
       (if (QuizSession.time_remaining session =? 0)%Z then 0
        else 30 * 60 - QuizSession.time_remaining session)%Z;
     QuizResults.completion_date := now;
     QuizResults.question_results := questionResults |}.

(** [TOTAL_TIME] of [src/app/page.tsx]. *)
Definition TOTAL_TIME : Z := 30 * 60.

(** [handleFinishQuiz]: the results of the session with the timer's
    [timeRemaining] put in as [time_remaining]. *)
Definition handleFinishQuiz (session : QuizSession.t) (timeRemaining : Z) (now : Z)
  : QuizResults.t :=
  createQuizResults
    {| QuizSession.user_email := QuizSession.user_email session;
       QuizSession.questions := QuizSession.questions session;
       QuizSession.time_remaining := timeRemaining;
       QuizSession.total_questions := QuizSession.total_questions session |}
    now.

(** One tick of the countdown of [startTimer]. *)
Definition tick (prev : Z) : Z :=
  if (prev <=? 1)%Z then 0%Z else (prev - 1)%Z.

(** The budget less the time remaining, not below zero. *)
Definition time_taken_spec (timeRemaining : Z) : Z :=
  Z.max 0 (TOTAL_TIME - timeRemaining).

(** ** Conditions on replacement rules

    Decidable conditions under which a chain of replacements can be
    followed through a string; they are checked on [entity_table] by
    evaluation. *)

Definition ampersand : char16 := 38%N.
Definition semicolon : char16 := 59%N.

(** [c] is among the code units of [s]. *)
Definition memb (c : char16) (s : jsstring) : bool := existsb (N.eqb c) s.

(** A pattern that starts with an ampersand and holds no other. *)
Definition pattern_ok (p : jsstring) : bool :=
  match p with
  | c :: w => (c =? ampersand)%N && negb (memb ampersand w)
  | [] => false
  end.

(** A pattern of the form [&body;] with no ampersand or semicolon in
    [body]. *)
Definition entity_shaped (p : jsstring) : bool :=
  match p with
  | c :: w =>
      (c =? ampersand)%N && negb (memb ampersand w)
      && match rev w with
         | d :: body => (d =? semicolon)%N && negb (memb semicolon body)
         | [] => false
         end
  | [] => false
  end.

(** A replacement that does not begin with a code unit of [w] and is
    either a lone ampersand or free of ampersands. *)
Definition replacement_ok (w r : jsstring) : bool :=
  match r with
  | x :: r' =>
      negb (memb x w)
      && (str_eqb r [ampersand] || negb (memb ampersand r))
  | [] => false
  end.

(** The rules [done] can be followed by a replacement of [p]. *)
Definition compatible (done : list rule) (p : jsstring) : bool :=
  pattern_ok p
  && forallb (fun pr => pattern_ok (fst pr) && replacement_ok (tl p) (snd pr)) done.

Fixpoint chain_ok (done todo : list rule) : bool :=
  match todo with
  | [] => true
  | (p, r) :: todo' => compatible done p && chain_ok (done ++ [(p, r)]) todo'
  end.

(** The strings [p ++ tl q] for a rule of [done] that replaces [p] by a
    lone ampersand and a pattern [q] of [todo]: where one of them occurs,
    the ampersand written for [p] completes an occurrence of [q]. *)
Fixpoint completions (done todo : list rule) : list jsstring :=
  match todo with
  | [] => []
  | (q, r) :: todo' =>
      map (fun pr => fst pr ++ tl q)
          (List.filter (fun pr => str_eqb (snd pr) [ampersand]) done)
      ++ completions (done ++ [(q, r)]) todo'
  end.

(** [p] and [m] differ at a position both have. *)
Fixpoint clash (p m : jsstring) : bool :=
  match p, m with
  | x :: p', y :: m' => negb (x =? y)%N || clash p' m'
  | _, _ => false
  end.

(** What [replace_all p r] makes of an occurrence of [m], whatever stands
    before and behind it; [None] when that depends on the context. *)
Definition middle_step (p r m : jsstring) : option jsstring :=
  match m with
  | [] => None
  | y :: m1 =>
      if negb (pattern_ok p) || memb y (tl p) then None
      else if prefixb p m then
        if memb ampersand (drop (length p) m) then None
        else Some (r ++ drop (length p) m)
      else if negb (memb ampersand m) then Some m
      else if (y =? ampersand)%N && negb (memb ampersand m1) && clash p m then Some m
      else None
  end.

Fixpoint chain_middle (rules : list rule) (m : jsstring) : option jsstring :=
  match rules with
  | [] => Some m
  | (p, r) :: rules' =>
      match middle_step p r m with
      | Some m' => chain_middle rules' m'
      | None => None
      end
  end.

(** [p] occurs in [s], decided. *)
Fixpoint occursb (p s : jsstring) : bool :=
  prefixb p s || match s with
                 | [] => false
                 | _ :: s' => occursb p s'
                 end.

Definition doubly_encodedb (s : jsstring) : bool :=
  existsb (fun t => occursb (str "&amp;" ++ t) s) later_entity_tails.

(** The doubly encoded entities are decoded to the texts of the table. *)
Definition double_decoding_check : bool :=
  forallb
    (fun pr =>
       match chain_middle entity_table (str "&amp;" ++ tl (fst pr)) with
       | Some m' => str_eqb m' (snd pr)
       | None => false
       end)
    (tl entity_table).

(** ** Sample data *)

(** A question with the correct answer [c], the answer [u] selected (or
    none) and the [is_answered] flag [a]. *)
Definition sample_question (n : nat) (c : jsstring) (u : option jsstring) (a : bool)
  : ProcessedQuestion.t :=
  {| ProcessedQuestion.id := n;
     ProcessedQuestion.category := str "General Knowledge";
     ProcessedQuestion.type := str "multiple";
     ProcessedQuestion.difficulty := str "easy";
     ProcessedQuestion.question := str "Which one?";
     ProcessedQuestion.correct_answer := c;
     ProcessedQuestion.options := [c; str "B"; str "C"; str "D"];
     ProcessedQuestion.user_answer := u;
     ProcessedQuestion.is_answered := a;
     ProcessedQuestion.is_visited := true |}.

Definition sample_session (qs : list ProcessedQuestion.t) (t : Z) : QuizSession.t :=
  {| QuizSession.user_email := str "a@b.co";
     QuizSession.questions := qs;
     QuizSession.time_remaining := t;
     QuizSession.total_questions := length qs |}.

(** Forty answered questions, twenty-three of them answered correctly. *)
Definition forty_answered : list ProcessedQuestion.t :=
  repeat (sample_question 1 (str "A") (Some (str "A")) true) 23
  ++ repeat (sample_question 1 (str "A") (Some (str "B")) true) 17.

(** One right answer, one wrong answer, one question left open. *)
Definition three_questions : list ProcessedQuestion.t :=
  [ sample_question 1 (str "A") (Some (str "A")) true;
    sample_question 2 (str "A") (Some (str "B")) true;
    sample_question 3 (str "A") None false ].



(** A random source whose every value is 0. *)
Definition zero_draw : unit_interval :=
  {| num := 0; den := 1; num_lt_den := Nat.lt_0_1 |}.

Definition zero_rng : Rng := fun _ => zero_draw.

(** A raw question with the correct answer [c] and the incorrect answers
    [ws]. *)
Definition sample_raw (c : jsstring) (ws : list jsstring) : QuizQuestion.t :=
  {| QuizQuestion.category := str "Entertainment: Music";
     QuizQuestion.type := str "multiple";
     QuizQuestion.difficulty := str "easy";
     QuizQuestion.question := str "Which one?";
     QuizQuestion.correct_answer := c;
     QuizQuestion.incorrect_answers := ws |}.

(** A raw question that lists its correct answer among the incorrect
    ones, once as it is and once with the ampersand encoded. *)
Definition repeated_answer : QuizQuestion.t :=
  sample_raw (str "R&B") [str "R&amp;B"; str "Soul"; str "R&B"].

(** A raw question with four different answers, one of them encoded. *)
Definition plain_question : QuizQuestion.t :=
  sample_raw (str "R&amp;B") [str "Soul"; str "Jazz"; str "Funk"].

(** ** [formatTime] and [formatTimeTaken]

    Times are whole numbers of seconds, as the countdown and
    [createQuizResults] supply them; for these [seconds / 60] is exact in
    the host's arithmetic and [Number.prototype.toString] gives the decimal
    digits. *)

Fixpoint uint_chars (d : Decimal.uint) : jsstring :=
  match d with
  | Decimal.Nil => []
  | Decimal.D0 d' => 48%N :: uint_chars d'
  | Decimal.D1 d' => 49%N :: uint_chars d'
  | Decimal.D2 d' => 50%N :: uint_chars d'
  | Decimal.D3 d' => 51%N :: uint_chars d'
  | Decimal.D4 d' => 52%N :: uint_chars d'
  | Decimal.D5 d' => 53%N :: uint_chars d'
  | Decimal.D6 d' => 54%N :: uint_chars d'
  | Decimal.D7 d' => 55%N :: uint_chars d'
  | Decimal.D8 d' => 56%N :: uint_chars d'
  | Decimal.D9 d' => 57%N :: uint_chars d'
  end.

(** [n.toString()] for a whole number [n]. *)
Definition Number_toString (n : nat) : jsstring := uint_chars (Nat.to_uint n).

(** [s.padStart(targetLength, padString)]: [padString] repeated, cut to
    the missing length, in front of [s]. *)
Definition padStart (targetLength : nat) (padString s : jsstring) : jsstring :=
  let missing := targetLength - length s in
  take missing (concat (repeat padString missing)) ++ s.

Definition formatTime (seconds : nat) : jsstring :=
  let minutes := seconds / 60 in
  let remainingSeconds := seconds mod 60 in
  padStart 2 (str "0") (Number_toString minutes)
    ++ str ":" ++ padStart 2 (str "0") (Number_toString remainingSeconds).

(** [formatTimeTaken] of the results page. *)
Definition formatTimeTaken (seconds : nat) : jsstring :=
  let minutes := seconds / 60 in
  let remainingSeconds := seconds mod 60 in
  Number_toString minutes ++ str "m " ++ Number_toString remainingSeconds ++ str "s".

(** The code unit of the decimal digit [d]. *)
Definition digit_char (d : nat) : char16 := (48 + N.of_nat d)%N.

Definition is_digit (c : char16) : bool := ((48 <=? c) && (c <=? 57))%N.

(** All pairs of counts with [correct <= answered < bound], checked for
    the score being 100 exactly when all answers are correct and 0 exactly
    when none is. *)
Definition score_extremes_below (bound : nat) : bool :=
  forallb
    (fun a =>
       forallb
         (fun c =>
            Bool.eqb (sf_eqb (score_of_counts c a) (JsNumber.of_Z 100)) (Nat.eqb c a)
            && Bool.eqb (sf_eqb (score_of_counts c a) (JsNumber.of_Z 0)) (Nat.eqb c 0))
         (seq 0 (S a)))
    (seq 1 (bound - 1)).

(** ** The session handlers of the page ([src/app/page.tsx])

    [current_question_index], the field of the session that
    [createQuizResults] does not read, is kept beside the [QuizSession]
    record.  The handlers are those of a page that has a session (they
    return at once when it has none). *)

Module QuizState.
Record t := mk {
  session : QuizSession.t;
  current_question_index : Z
}.
End QuizState.

Definition TOTAL_QUESTIONS : nat := 15.

(** [array.map((x, index) => f x index)] without effects, from [index]
    on. *)
Fixpoint map_index {A B} (f : A -> nat -> B) (index : nat) (array : list A) : list B :=
  match array with
  | [] => []
  | x :: rest => f x index :: map_index f (S index) rest
  end.

(** [{...prev, questions: updatedQuestions}]. *)
Definition with_questions (prev : QuizSession.t) (updatedQuestions : list ProcessedQuestion.t)
  : QuizSession.t :=
  {| QuizSession.user_email := QuizSession.user_email prev;
     QuizSession.questions := updatedQuestions;
     QuizSession.time_remaining := QuizSession.time_remaining prev;
     QuizSession.total_questions := QuizSession.total_questions prev |}.

(** [{...q, is_visited: v}]. *)
Definition with_visited (q : ProcessedQuestion.t) (v : bool) : ProcessedQuestion.t :=
  {| ProcessedQuestion.id := ProcessedQuestion.id q;
     ProcessedQuestion.category := ProcessedQuestion.category q;
     ProcessedQuestion.type := ProcessedQuestion.type q;
     ProcessedQuestion.difficulty := ProcessedQuestion.difficulty q;
     ProcessedQuestion.question := ProcessedQuestion.question q;
     ProcessedQuestion.correct_answer := ProcessedQuestion.correct_answer q;
     ProcessedQuestion.options := ProcessedQuestion.options q;
     ProcessedQuestion.user_answer := ProcessedQuestion.user_answer q;
     ProcessedQuestion.is_answered := ProcessedQuestion.is_answered q;
     ProcessedQuestion.is_visited := v |}.

(** [{...q, user_answer: answer, is_answered: true}]. *)
Definition with_answer (q : ProcessedQuestion.t) (answer : jsstring) : ProcessedQuestion.t :=
  {| ProcessedQuestion.id := ProcessedQuestion.id q;
     ProcessedQuestion.category := ProcessedQuestion.category q;
     ProcessedQuestion.type := ProcessedQuestion.type q;
     ProcessedQuestion.difficulty := ProcessedQuestion.difficulty q;
     ProcessedQuestion.question := ProcessedQuestion.question q;
     ProcessedQuestion.correct_answer := ProcessedQuestion.correct_answer q;
     ProcessedQuestion.options := ProcessedQuestion.options q;
     ProcessedQuestion.user_answer := Some answer;
     ProcessedQuestion.is_answered := true;
     ProcessedQuestion.is_visited := ProcessedQuestion.is_visited q |}.

(** The session [handleStartQuiz] creates from the fetched questions: the
    first question is marked visited. *)
Definition startSession (email : jsstring) (questions : list ProcessedQuestion.t)
  : QuizState.t :=
  let processedQuestions :=
    map_index (fun q index => with_visited q (Nat.eqb index 0)) 0 questions in
  {| QuizState.session :=
       {| QuizSession.user_email := email;
          QuizSession.questions := processedQuestions;
          QuizSession.time_remaining := TOTAL_TIME;
          QuizSession.total_questions := TOTAL_QUESTIONS |};
     QuizState.current_question_index := 0 |}.

Definition handleAnswerSelect (questionId : nat) (answer : jsstring) (prev : QuizState.t)
  : QuizState.t :=
  let updatedQuestions :=
    map (fun q => if Nat.eqb (ProcessedQuestion.id q) questionId
                  then with_answer q answer else q)
        (QuizSession.questions (QuizState.session prev)) in
  {| QuizState.session := with_questions (QuizState.session prev) updatedQuestions;
     QuizState.current_question_index := QuizState.current_question_index prev |}.

Definition handleQuestionNavigate (questionIndex : Z) (prev : QuizState.t) : QuizState.t :=
  let updatedQuestions :=
    map_index (fun q index => if (Z.of_nat index =? questionIndex)%Z
                              then with_visited q true else q)
              0 (QuizSession.questions (QuizState.session prev)) in
  {| QuizState.session := with_questions (QuizState.session prev) updatedQuestions;
     QuizState.current_question_index := questionIndex |}.

Definition handleNextQuestion (st : QuizState.t) : QuizState.t :=
  let nextIndex := (QuizState.current_question_index st + 1)%Z in
  if (nextIndex <? Z.of_nat (length (QuizSession.questions (QuizState.session st))))%Z
  then handleQuestionNavigate nextIndex st
  else st.

Definition handlePreviousQuestion (st : QuizState.t) : QuizState.t :=
  let prevIndex := (QuizState.current_question_index st - 1)%Z in
  if (0 <=? prevIndex)%Z then handleQuestionNavigate prevIndex st else st.

(** The question on display:
    [session.questions[session.current_question_index]]. *)
Definition currentQuestion (st : QuizState.t) : option ProcessedQuestion.t :=
  if (QuizState.current_question_index st <? 0)%Z then None
  else QuizSession.questions (QuizState.session st)
         !! Z.to_nat (QuizState.current_question_index st).

(** What the user can do on the quiz screen: choose one of the options of
    the question on display, click a question of the navigation grid, or
    press Next or Previous. *)
Inductive step : QuizState.t -> QuizState.t -> Prop :=
| step_choose st q chosen :
    currentQuestion st = Some q ->
    In chosen (ProcessedQuestion.options q) ->
    step st (handleAnswerSelect (ProcessedQuestion.id q) chosen st)
| step_click st index :
    index < length (QuizSession.questions (QuizState.session st)) ->
    step st (handleQuestionNavigate (Z.of_nat index) st)
| step_next st : step st (handleNextQuestion st)
| step_previous st : step st (handlePreviousQuestion st).

Inductive reachable (start : QuizState.t) : QuizState.t -> Prop :=
| reach_start : reachable start start
| reach_step st st' : reachable start st -> step st st' -> reachable start st'.

(** The parts of a question that the handlers never write. *)
Definition fixed_part (q : ProcessedQuestion.t)
  : nat * jsstring * jsstring * jsstring * jsstring * jsstring * list jsstring :=
  (ProcessedQuestion.id q, ProcessedQuestion.category q, ProcessedQuestion.type q,
   ProcessedQuestion.difficulty q, ProcessedQuestion.question q,
   ProcessedQuestion.correct_answer q, ProcessedQuestion.options q).

(** The parts of a question that [calculateScore] reads. *)
Definition scored_part (q : ProcessedQuestion.t) : bool * option jsstring * jsstring :=
  (ProcessedQuestion.is_answered q, ProcessedQuestion.user_answer q,
   ProcessedQuestion.correct_answer q).

(** A question is flagged answered exactly when it holds an answer, and
    the answer it holds is one of its options. *)
Definition answer_consistent (q : ProcessedQuestion.t) : Prop :=
  match ProcessedQuestion.user_answer q with
  | Some a => ProcessedQuestion.is_answered q = true /\ In a (ProcessedQuestion.options q)
  | None => ProcessedQuestion.is_answered q = false
  end.

(** What holds of a session all through a quiz over the questions
    [processed]: the handlers have written nothing but answers and flags,
    flags and answers agree, the index is that of a question (or 0 when
    there is none), the question on display is marked visited, and the
    time and question count the session was created with are still
    there. *)
Definition session_invariant (processed : list ProcessedQuestion.t) (st : QuizState.t)
  : Prop :=
  let qs := QuizSession.questions (QuizState.session st) in
  let current := QuizState.current_question_index st in
  map fixed_part qs = map fixed_part processed
  /\ Forall answer_consistent qs
  /\ (0 <= current)%Z
  /\ (current < Z.of_nat (length qs) \/ current = 0)%Z
  /\ (forall q, currentQuestion st = Some q -> ProcessedQuestion.is_visited q = true)
  /\ QuizSession.time_remaining (QuizState.session st) = TOTAL_TIME
  /\ QuizSession.total_questions (QuizState.session st) = TOTAL_QUESTIONS.

(** ** The email form of the start page ([src/components/StartPage.tsx]) *)

Fixpoint trimStart (s : jsstring) : jsstring :=
  match s with
  | c :: s' => if is_space c then trimStart s' else s
  | [] => []
  end.

(** [s.trim()]: white space and line terminators are the class [\s]. *)
Definition trim (s : jsstring) : jsstring :=
  rev (trimStart (rev (trimStart s))).

Inductive start_outcome : Type :=
| EmailError : jsstring -> start_outcome
| StartQuiz : jsstring -> start_outcome.

(** [handleStartQuiz] of the start page, up to its call of
    [onStartQuiz]. *)
Definition StartPage_handleStartQuiz (email : jsstring) : start_outcome :=
  let trimmedEmail := trim email in
  match trimmedEmail with
  | [] => EmailError (str "Please enter your email address")
  | _ =>
      if negb (validateEmail trimmedEmail)
      then EmailError (str "Please enter a valid email address")
      else StartQuiz trimmedEmail
  end.

(** ** [fetchQuizQuestions]

    What [fetch] and [response.json()] do is the input: either rejects
    with a thrown value, or a response arrives.  Of a thrown value the
    [catch] block reads whether it is an [Error], its [message] and its
    [status] property, when it has one. *)

Module Thrown.
Record t := mk {
  instanceof_Error : bool;
  message : jsstring;
  status : option nat
}.
End Thrown.

Module ApiError.
Record t := mk {
  message : jsstring;
  code : nat;
  details : Thrown.t
}.
End ApiError.

Inductive json_outcome : Type :=
| JsonRejects : Thrown.t -> json_outcome
| JsonData (response_code : nat) (results : list QuizQuestion.t) : json_outcome.

Inductive fetch_outcome : Type :=
| FetchRejects : Thrown.t -> fetch_outcome
| FetchResponds (ok : bool) (status : nat) (json : json_outcome) : fetch_outcome.

(** [new Error(message)]. *)
Definition new_Error (message : jsstring) : Thrown.t :=
  {| Thrown.instanceof_Error := true; Thrown.message := message; Thrown.status := None |}.

(** The body of the [try] block: the processed questions, or the value
    thrown. *)
Definition fetch_try (outcome : fetch_outcome) : Thrown.t + list QuizQuestion.t :=
  match outcome with
  | FetchRejects e => inl e
  | FetchResponds ok status json =>
      if negb ok
      then inl (new_Error (str "HTTP error! status: " ++ Number_toString status))
      else match json with
           | JsonRejects e => inl e
           | JsonData response_code results =>
               if negb (Nat.eqb response_code 0)
               then inl (new_Error (str "API error! response_code: "
                                      ++ Number_toString response_code))
               else inr results
           end
  end.

(** The [catch] block. *)
Definition to_ApiError (error : Thrown.t) : ApiError.t :=
  {| ApiError.message :=
       if Thrown.instanceof_Error error then Thrown.message error
       else str "Unknown error occurred";
     ApiError.code :=
       if Thrown.instanceof_Error error
       then match Thrown.status error with Some s => s | None => 500 end
       else 500;
     ApiError.details := error |}.

Definition fetchQuizQuestions (outcome : fetch_outcome)
  : Rand (ApiError.t + list ProcessedQuestion.t) :=
  match fetch_try outcome with
  | inr results =>
      let* questions := processQuizQuestions results in
      ret (inr questions)
  | inl error => ret (inl (to_ApiError error))
  end.

(** * Properties *)

(** ** Strings *)

Lemma str_eqb_eq (a b : jsstring) : str_eqb a b = true <-> a = b.
Proof.
  revert b; induction a as [|x a IH]; intros [|y b]; simpl; try (split; congruence).
  rewrite andb_true_iff, N.eqb_eq, IH. split.
  - intros [-> ->]; reflexivity.
  - intros [= -> ->]; auto.
Qed.

Lemma str_eqb_refl (a : jsstring) : str_eqb a a = true.
Proof. apply str_eqb_eq; reflexivity. Qed.

Lemma str_eqb_neq (a b : jsstring) : str_eqb a b = false <-> a <> b.
Proof.
  rewrite <- str_eqb_eq. destruct (str_eqb a b); split; congruence.
Qed.

(** ** Scoring *)

Lemma filter_filter_andb {A} (f g : A -> bool) (l : list A) :
  List.filter g (List.filter f l) = List.filter (fun x => f x && g x) l.
Proof.
  induction l as [|x l IH]; simpl; [reflexivity|].
  destruct (f x); simpl; [destruct (g x)|]; rewrite IH; reflexivity.
Qed.

Lemma filter_length_andb_le {A} (f g : A -> bool) (l : list A) :
  length (List.filter (fun x => f x && g x) l) <= length (List.filter f l).
Proof.
  induction l as [|x l IH]; simpl; [lia|].
  destruct (f x), (g x); simpl; lia.
Qed.

Lemma correct_le_answered (qs : list ProcessedQuestion.t) :
  correct_count qs <= answered_count qs.
Proof. apply filter_length_andb_le. Qed.

(** [calculateScore] depends on the questions through the two counts only. *)
Lemma calculateScore_counts (qs : list ProcessedQuestion.t) :
  calculateScore qs = score_of_counts (correct_count qs) (answered_count qs).
Proof.
  unfold calculateScore, score_of_counts, correct_count, answered_count.
  rewrite filter_filter_andb. reflexivity.
Qed.

Lemma sf_eqb_eq (x y : spec_float) : sf_eqb x y = true -> x = y.
Proof.
  destruct x as [a| | |a m e], y as [b| | |b m' e']; simpl; try discriminate.
  - intros H; apply Bool.eqb_prop in H; congruence.
  - rewrite !andb_true_iff. intros [[H1 H2] H3].
    apply Bool.eqb_prop in H1. apply Pos.eqb_eq in H2. apply Z.eqb_eq in H3.
    congruence.
Qed.

Lemma scores_exact_below_40 : scores_exact_below 40 = true.
Proof. vm_compute. reflexivity. Qed.

(** Below forty answered questions the host's arithmetic gives the
    exactly rounded percentage. *)
Lemma score_of_counts_exact (c a : nat) :
  c <= a -> 0 < a < 40 ->
  score_of_counts c a = JsNumber.of_Z (round_percent c a).
Proof.
  intros Hc Ha. apply sf_eqb_eq.
  pose proof scores_exact_below_40 as H. unfold scores_exact_below in H.
  rewrite forallb_forall in H.
  assert (Hin : In a (seq 1 (40 - 1))) by (apply in_seq; simpl; lia).
  specialize (H a Hin). rewrite forallb_forall in H.
  apply H. apply in_seq. lia.
Qed.

(** C1 (as stated, refuted): with forty answered questions of which
    twenty-three are correct, [100 * 23 / 40] is 57.5, which rounds to 58
    whether a tie goes up or to the even neighbour, but [calculateScore]
    returns 57: the host computes [(23 / 40) * 100] as
    57.49999999999999. *)
Lemma calculateScore_57_not_58 :
  answered_count forty_answered = 40
  /\ correct_count forty_answered = 23
  /\ round_percent 23 40 = 58%Z
  /\ round_percent_even 23 40 = 58%Z
  /\ calculateScore forty_answered = JsNumber.of_Z 57
  /\ calculateScore forty_answered <> JsNumber.of_Z 58.
Proof.
  repeat split; try (vm_compute; reflexivity).
  vm_compute. discriminate.
Qed.

(** C1 (amended): the score is 0 when no question is answered, and with
    fewer than forty answered questions it is [100 * correct / answered]
    rounded to the nearest integer, a tie going up, where [answered] counts
    the questions with the flag [is_answered] and [correct] those of them
    whose [user_answer] is the [correct_answer]; for any number of
    questions it is [Math.round] of the host's product
    [(correct / answered) * 100]. *)
Theorem calculateScore_rounded_percentage (qs : list ProcessedQuestion.t) :
  (answered_count qs = 0 -> calculateScore qs = JsNumber.of_Z 0)
  /\ (0 < answered_count qs < 40 ->
      calculateScore qs
      = JsNumber.of_Z (round_percent (correct_count qs) (answered_count qs)))
  /\ calculateScore qs = score_of_counts (correct_count qs) (answered_count qs).
Proof.
  rewrite calculateScore_counts. split; [|split].
  - intros ->. reflexivity.
  - intros Hlt. apply score_of_counts_exact; [apply correct_le_answered|exact Hlt].
  - reflexivity.
Qed.

Lemma calculateScore_rounded_percentage_witness :
  0 < answered_count three_questions < 40
  /\ answered_count three_questions = 2
  /\ correct_count three_questions = 1
  /\ calculateScore three_questions = JsNumber.of_Z 50
  /\ calculateScore [] = JsNumber.of_Z 0.
Proof.
  assert (H : 0 < answered_count three_questions < 40) by (vm_compute; lia).
  split; [exact H|].
  split; [reflexivity|]. split; [reflexivity|].
  split.
  - exact (proj1 (proj2 (calculateScore_rounded_percentage three_questions)) H).
  - exact (proj1 (calculateScore_rounded_percentage []) eq_refl).
Defined.

(** ** Results *)

Section Results.

Variable session : QuizSession.t.
Variable now : Z.



End Results.

(** The three counts add up to the number of results plus the number of
    results that are both correct and recorded as not answered. *)
Lemma three_way_count (rs : list QuestionResult.t) :
  length (List.filter QuestionResult.is_correct rs)
  + length (List.filter
              (fun r => negb (QuestionResult.is_correct r) && negb (recorded_not_answered r))
              rs)
  + length (List.filter recorded_not_answered rs)
  = length rs
    + length (List.filter
                (fun r => QuestionResult.is_correct r && recorded_not_answered r) rs).
Proof.
  induction rs as [|r rs IH]; simpl; [reflexivity|].
  destruct (QuestionResult.is_correct r), (recorded_not_answered r); simpl; lia.
Qed.

Lemma filter_none {A} (f : A -> bool) (l : list A) :
  Forall (fun x => f x = false) l -> List.filter f l = [].
Proof.
  induction 1 as [|x l Hx _ IH]; simpl; [reflexivity|]. rewrite Hx. exact IH.
Qed.

(** What [q.user_answer || 'Not answered'] records. *)
Lemma or_not_answered_cases (u : option jsstring) :
  match u with
  | Some s => if str_eqb s [] then or_not_answered u = not_answered
              else or_not_answered u = s
  | None => or_not_answered u = not_answered
  end.
Proof. destruct u as [[|c s]|]; reflexivity. Qed.





(** With time left on the clock, [time_taken] is the budget less the time
    remaining. *)
Lemma time_taken_running (session : QuizSession.t) (t now : Z) :
  (0 < t <= TOTAL_TIME)%Z ->
  QuizResults.time_taken (handleFinishQuiz session t now) = time_taken_spec t.
Proof.
  intros Ht. unfold handleFinishQuiz, createQuizResults, time_taken_spec, TOTAL_TIME in *.
  simpl. destruct (Z.eqb_spec t 0); lia.
Qed.

(** C6 (the code departs from it): the countdown ends at 0 and the quiz is
    then submitted with no time remaining; the specification gives the
    whole budget of 1800 seconds as the time taken, [createQuizResults]
    gives 0, because its test [session.time_remaining ? ... : 0] takes the
    number 0 for a missing value. *)
Theorem time_taken_at_timeout (session : QuizSession.t) (now : Z) :
  tick 1 = 0%Z
  /\ time_taken_spec 0 = 1800%Z
  /\ QuizResults.time_taken (handleFinishQuiz session 0 now) = 0%Z
  /\ QuizResults.time_taken (handleFinishQuiz session 1 now) = 1799%Z.
Proof. repeat split. Qed.

(** C9: two runs of [createQuizResults] on the same session, at any two
    times, agree in every field but [completion_date], and the score they
    hold is the one [calculateScore] gives for the session's questions
    each time it is called. *)
Theorem createQuizResults_deterministic (session : QuizSession.t) (now1 now2 : Z) :
  let r1 := createQuizResults session now1 in
  let r2 := createQuizResults session now2 in
  QuizResults.user_email r1 = QuizResults.user_email r2
  /\ QuizResults.score r1 = QuizResults.score r2
  /\ QuizResults.total_questions r1 = QuizResults.total_questions r2
  /\ QuizResults.correct_answers r1 = QuizResults.correct_answers r2
  /\ QuizResults.incorrect_answers r1 = QuizResults.incorrect_answers r2
  /\ QuizResults.unanswered_questions r1 = QuizResults.unanswered_questions r2
  /\ QuizResults.time_taken r1 = QuizResults.time_taken r2
  /\ QuizResults.question_results r1 = QuizResults.question_results r2
  /\ QuizResults.score r1 = calculateScore (QuizSession.questions session)
  /\ QuizResults.completion_date r1 = now1
  /\ QuizResults.completion_date r2 = now2.
Proof. cbv zeta. repeat split. Qed.

(** ** Shuffling *)

Section Shuffle.

Context {T : Type}.
Implicit Types (a b : list T) (i j k : nat) (js : list nat) (g : Rng).



Lemma insert_Permutation a i x :
  i < length a -> <[i:=x]> a ≡ₚ x :: delete i a.
Proof.
  revert i; induction a as [|z a IH]; intros [|i] Hi; simpl in *; try lia.
  - reflexivity.
  - rewrite (IH i) by lia. apply perm_swap.
Qed.

Lemma double_insert_Permutation a i j x y :
  a !! i = Some x -> a !! j = Some y -> <[j:=x]> (<[i:=y]> a) ≡ₚ a.
Proof.
  revert i j; induction a as [|z a IH]; intros [|i] [|j] Hx Hy; simpl in *;
    try discriminate.
  - injection Hx as ->. reflexivity.
  - injection Hx as ->.
    rewrite insert_Permutation by (eapply lookup_lt_Some; eassumption).
    rewrite (delete_Permutation a j y Hy) at 2. apply perm_swap.
  - injection Hy as ->.
    rewrite insert_Permutation by (eapply lookup_lt_Some; eassumption).
    rewrite (delete_Permutation a i x Hx) at 2. apply perm_swap.
  - constructor. apply IH; assumption.
Qed.

Lemma swap_Permutation i j a : swap i j a ≡ₚ a.
Proof.
  unfold swap. destruct (a !! i) eqn:Hi, (a !! j) eqn:Hj; try reflexivity.
  apply double_insert_Permutation; assumption.
Qed.

Lemma shuffle_with_Permutation i js a : shuffle_with i js a ≡ₚ a.
Proof.
  revert js a; induction i as [|i IH]; intros [|j js] a; simpl; try reflexivity.
  rewrite IH. apply swap_Permutation.
Qed.

(** The loop is its run on the indices it draws. *)
Lemma shuffle_loop_drawn i a g :
  fst (shuffle_loop i a g) = shuffle_with i (drawn_indices i g) a.
Proof.
  revert a g; induction i as [|i IH]; intros a g; [reflexivity|].
  simpl. unfold bind, Math_random. apply IH.
Qed.

Lemma shuffleArray_drawn a g :
  fst (shuffleArray a g) = shuffle_with (length a - 1) (drawn_indices (length a - 1) g) a.
Proof. apply shuffle_loop_drawn. Qed.

Lemma shuffleArray_Permutation a g : fst (shuffleArray a g) ≡ₚ a.
Proof. rewrite shuffleArray_drawn. apply shuffle_with_Permutation. Qed.

Lemma shuffleArray_length a g : length (fst (shuffleArray a g)) = length a.
Proof. apply Permutation_length, shuffleArray_Permutation. Qed.

End Shuffle.

Lemma filter_Permutation_length {A} (f : A -> bool) (l1 l2 : list A) :
  l1 ≡ₚ l2 -> length (List.filter f l1) = length (List.filter f l2).
Proof.
  induction 1 as [|x l1 l2 _ IH|x y l|l1 l2 l3 _ IH1 _ IH2]; simpl.
  - reflexivity.
  - destruct (f x); simpl; congruence.
  - destruct (f x), (f y); reflexivity.
  - congruence.
Qed.

Lemma occurrences_Permutation (x : jsstring) (l1 l2 : list jsstring) :
  l1 ≡ₚ l2 -> occurrences x l1 = occurrences x l2.
Proof. apply filter_Permutation_length. Qed.

(** ** Question processing *)

Lemma bind_run {A B} (c : Rand A) (k : A -> Rand B) (g : Rng) :
  bind c k g = k (fst (c g)) (snd (c g)).
Proof. unfold bind. destruct (c g); reflexivity. Qed.

Lemma map_indexed_cons {A B} (f : A -> nat -> Rand B) (k : nat) (x : A) (l : list A) (g : Rng) :
  fst (map_indexed f k (x :: l) g)
  = fst (f x k g) :: fst (map_indexed f (S k) l (snd (f x k g))).
Proof. simpl. rewrite !bind_run. reflexivity. Qed.

(** The question [processQuestion] returns, given the shuffled options. *)
Lemma processQuestion_run (q : QuizQuestion.t) (k : nat) (g : Rng) :
  fst (processQuestion q k g)
  = {| ProcessedQuestion.id := k + 1;
       ProcessedQuestion.category := decodeHtmlEntities (QuizQuestion.category q);
       ProcessedQuestion.type := QuizQuestion.type q;
       ProcessedQuestion.difficulty := QuizQuestion.difficulty q;
       ProcessedQuestion.question := decodeHtmlEntities (QuizQuestion.question q);
       ProcessedQuestion.correct_answer := decodeHtmlEntities (QuizQuestion.correct_answer q);
       ProcessedQuestion.options := fst (shuffleArray (unshuffled_options q) g);
       ProcessedQuestion.user_answer := None;
       ProcessedQuestion.is_answered := false;
       ProcessedQuestion.is_visited := false |}.
Proof. unfold processQuestion. rewrite bind_run. reflexivity. Qed.

Lemma map_indexed_length {A B} (f : A -> nat -> Rand B) (l : list A) (k : nat) (g : Rng) :
  length (fst (map_indexed f k l g)) = length l.
Proof.
  revert k g; induction l as [|x l IH]; intros k g; [reflexivity|].
  rewrite map_indexed_cons. simpl. rewrite IH. reflexivity.
Qed.

(** A field of the output that does not depend on the random source. *)
Lemma map_indexed_field {C} (proj : ProcessedQuestion.t -> C) (h : nat -> QuizQuestion.t -> C)
      (qs : list QuizQuestion.t) (k : nat) (g : Rng) :
  (forall q i g', proj (fst (processQuestion q i g')) = h i q) ->
  map proj (fst (map_indexed processQuestion k qs g))
  = map (fun kq => h (fst kq) (snd kq)) (combine (seq k (length qs)) qs).
Proof.
  intros Hp. revert k g; induction qs as [|q qs IH]; intros k g; [reflexivity|].
  rewrite map_indexed_cons. simpl. rewrite Hp, IH. reflexivity.
Qed.

Lemma map_combine_snd {A B C} (h : B -> C) (l1 : list A) (l2 : list B) :
  length l1 = length l2 ->
  map (fun kq => h (snd kq)) (combine l1 l2) = map h l2.
Proof.
  revert l2; induction l1 as [|x l1 IH]; intros [|y l2] Hl; simpl in *; try lia; [reflexivity|].
  rewrite IH by lia. reflexivity.
Qed.

Lemma map_combine_fst {A B C} (h : A -> C) (l1 : list A) (l2 : list B) :
  length l1 = length l2 ->
  map (fun kq => h (fst kq)) (combine l1 l2) = map h l1.
Proof.
  revert l2; induction l1 as [|x l1 IH]; intros [|y l2] Hl; simpl in *; try lia; [reflexivity|].
  rewrite IH by lia. reflexivity.
Qed.

Lemma map_const_repeat {A C} (c : C) (l : list A) :
  map (fun _ => c) l = repeat c (length l).
Proof. induction l; simpl; congruence. Qed.

(** C4: [processQuizQuestions] returns as many questions as it is given,
    in the order given (each output question carries the decoded texts and
    the copied type and difficulty of the input question at its place),
    with the ids 1, 2, ..., N, and with [user_answer] absent and
    [is_answered] and [is_visited] false throughout. *)
Theorem processQuizQuestions_shape (questions : list QuizQuestion.t) (g : Rng) :
  let out := fst (processQuizQuestions questions g) in
  length out = length questions
  /\ map ProcessedQuestion.id out = seq 1 (length questions)
  /\ map ProcessedQuestion.question out
     = map (fun q => decodeHtmlEntities (QuizQuestion.question q)) questions
  /\ map ProcessedQuestion.correct_answer out
     = map (fun q => decodeHtmlEntities (QuizQuestion.correct_answer q)) questions
  /\ map ProcessedQuestion.category out
     = map (fun q => decodeHtmlEntities (QuizQuestion.category q)) questions
  /\ map ProcessedQuestion.type out = map QuizQuestion.type questions
  /\ map ProcessedQuestion.difficulty out = map QuizQuestion.difficulty questions
  /\ map ProcessedQuestion.user_answer out = repeat None (length questions)
  /\ map ProcessedQuestion.is_answered out = repeat false (length questions)
  /\ map ProcessedQuestion.is_visited out = repeat false (length questions).
Proof.
  cbv zeta. unfold processQuizQuestions.
  assert (Hlen : length (seq 0 (length questions)) = length questions) by apply length_seq.
  split; [apply map_indexed_length|].
  split.
  { rewrite (map_indexed_field _ (fun i _ => i + 1))
      by (intros; rewrite processQuestion_run; reflexivity).
    rewrite (map_combine_fst (fun i => i + 1)) by exact Hlen.
    rewrite <- seq_shift. apply map_ext. intros; lia. }
  assert (Hconst : forall (C : Type) (c : C),
             map (fun _ : QuizQuestion.t => c) questions = repeat c (length questions))
    by (intros; apply map_const_repeat).
  repeat split.
  - rewrite (map_indexed_field _ (fun _ q => decodeHtmlEntities (QuizQuestion.question q)))
      by (intros; rewrite processQuestion_run; reflexivity).
    apply (map_combine_snd (fun q => decodeHtmlEntities (QuizQuestion.question q))), Hlen.
  - rewrite (map_indexed_field _ (fun _ q => decodeHtmlEntities (QuizQuestion.correct_answer q)))
      by (intros; rewrite processQuestion_run; reflexivity).
    apply (map_combine_snd (fun q => decodeHtmlEntities (QuizQuestion.correct_answer q))), Hlen.
  - rewrite (map_indexed_field _ (fun _ q => decodeHtmlEntities (QuizQuestion.category q)))
      by (intros; rewrite processQuestion_run; reflexivity).
    apply (map_combine_snd (fun q => decodeHtmlEntities (QuizQuestion.category q))), Hlen.
  - rewrite (map_indexed_field _ (fun _ q => QuizQuestion.type q))
      by (intros; rewrite processQuestion_run; reflexivity).
    apply (map_combine_snd QuizQuestion.type), Hlen.
  - rewrite (map_indexed_field _ (fun _ q => QuizQuestion.difficulty q))
      by (intros; rewrite processQuestion_run; reflexivity).
    apply (map_combine_snd QuizQuestion.difficulty), Hlen.
  - rewrite (map_indexed_field _ (fun _ _ => None))
      by (intros; rewrite processQuestion_run; reflexivity).
    rewrite (map_combine_snd (fun _ => None) _ _ Hlen). apply Hconst.
  - rewrite (map_indexed_field _ (fun _ _ => false))
      by (intros; rewrite processQuestion_run; reflexivity).
    rewrite (map_combine_snd (fun _ => false) _ _ Hlen). apply Hconst.
  - rewrite (map_indexed_field _ (fun _ _ => false))
      by (intros; rewrite processQuestion_run; reflexivity).
    rewrite (map_combine_snd (fun _ => false) _ _ Hlen). apply Hconst.
Qed.

Lemma occurrences_cons_same (x : jsstring) (l : list jsstring) :
  occurrences x (x :: l) = 1 + occurrences x l.
Proof. unfold occurrences. simpl. rewrite str_eqb_refl. reflexivity. Qed.

Lemma occurrences_zero (x : jsstring) (l : list jsstring) :
  ~ In x l -> occurrences x l = 0.
Proof.
  unfold occurrences. induction l as [|y l IH]; simpl; intros Hn; [reflexivity|].
  destruct (str_eqb x y) eqn:E.
  - apply str_eqb_eq in E. exfalso. apply Hn. left. congruence.
  - apply IH. intros Hin. apply Hn. right. exact Hin.
Qed.

(** The options of one processed question. *)
Lemma processQuestion_options (q : QuizQuestion.t) (k : nat) (g : Rng) :
  let p := fst (processQuestion q k g) in
  ProcessedQuestion.options p ≡ₚ unshuffled_options q
  /\ length (ProcessedQuestion.options p) = 1 + length (QuizQuestion.incorrect_answers q)
  /\ occurrences (ProcessedQuestion.correct_answer p) (ProcessedQuestion.options p)
     = 1 + occurrences (decodeHtmlEntities (QuizQuestion.correct_answer q))
             (map decodeHtmlEntities (QuizQuestion.incorrect_answers q)).
Proof.
  cbv zeta. rewrite processQuestion_run. simpl.
  pose proof (shuffleArray_Permutation (unshuffled_options q) g) as Hp.
  split; [exact Hp|]. split.
  - rewrite (Permutation_length Hp). unfold unshuffled_options. simpl.
    rewrite length_map. reflexivity.
  - rewrite (occurrences_Permutation _ _ _ Hp). apply occurrences_cons_same.
Qed.

(** A property every [processQuestion] result has, whatever the index
    and the state of the random source, holds along the output. *)
Lemma map_indexed_Forall2 (P : QuizQuestion.t -> ProcessedQuestion.t -> Prop)
      (qs : list QuizQuestion.t) (k : nat) (g : Rng) :
  (forall q i g', P q (fst (processQuestion q i g'))) ->
  Forall2 P qs (fst (map_indexed processQuestion k qs g)).
Proof.
  intros HP. revert k g; induction qs as [|q qs IH]; intros k g.
  - constructor.
  - rewrite map_indexed_cons. constructor; [apply HP|apply IH].
Qed.

(** C2 (as stated, refuted): for a raw question that lists its correct
    answer among the incorrect ones (as it is, or differing only in the
    encoding of an entity), the decoded correct answer occurs in [options]
    three times. *)
Lemma options_repeat_correct_answer :
  map (fun p => (length (ProcessedQuestion.options p),
                 occurrences (ProcessedQuestion.correct_answer p)
                             (ProcessedQuestion.options p)))
      (fst (processQuizQuestions [repeated_answer] zero_rng))
  = [(4, 3)].
Proof. vm_compute. reflexivity. Qed.

(** C2 (amended): each processed question has [options] of length
    1 + (number of incorrect answers), and the decoded correct answer
    occurs in [options] once more than among the decoded incorrect
    answers: exactly once when no incorrect answer decodes to the text of
    the decoded correct answer. *)
Theorem processQuizQuestions_options (questions : list QuizQuestion.t) (g : Rng) :
  Forall2
    (fun q p =>
       length (ProcessedQuestion.options p) = 1 + length (QuizQuestion.incorrect_answers q)
       /\ occurrences (ProcessedQuestion.correct_answer p) (ProcessedQuestion.options p)
          = 1 + occurrences (decodeHtmlEntities (QuizQuestion.correct_answer q))
                  (map decodeHtmlEntities (QuizQuestion.incorrect_answers q))
       /\ (~ In (decodeHtmlEntities (QuizQuestion.correct_answer q))
               (map decodeHtmlEntities (QuizQuestion.incorrect_answers q)) ->
           occurrences (ProcessedQuestion.correct_answer p) (ProcessedQuestion.options p) = 1))
    questions
    (fst (processQuizQuestions questions g)).
Proof.
  apply map_indexed_Forall2. intros q k g'.
  destruct (processQuestion_options q k g') as (_ & Hl & Ho).
  split; [exact Hl|]. split; [exact Ho|].
  intros Hn. rewrite Ho, (occurrences_zero _ _ Hn). reflexivity.
Qed.

Lemma processQuizQuestions_options_witness :
  ~ In (decodeHtmlEntities (QuizQuestion.correct_answer plain_question))
       (map decodeHtmlEntities (QuizQuestion.incorrect_answers plain_question))
  /\ Forall2
       (fun q p =>
          length (ProcessedQuestion.options p) = 4
          /\ occurrences (ProcessedQuestion.correct_answer p) (ProcessedQuestion.options p) = 1)
       [plain_question]
       (fst (processQuizQuestions [plain_question] zero_rng)).
Proof.
  assert (Hn : ~ In (decodeHtmlEntities (QuizQuestion.correct_answer plain_question))
                    (map decodeHtmlEntities (QuizQuestion.incorrect_answers plain_question))).
  { vm_compute. intuition discriminate. }
  split; [exact Hn|].
  pose proof (processQuizQuestions_options [plain_question] zero_rng) as H.
  inversion H as [|q p qs ps (Hl & _ & Ho) Hrest Eq Ep]. subst q qs.
  inversion Hrest. subst ps.
  constructor; [|constructor]. split; [exact Hl|exact (Ho Hn)].
Defined.

(** ** The index vectors of the shuffle *)












(** ** Index vectors and arrangements *)

Section ShuffleBijection.

Context {T : Type}.
Implicit Types (a b p : list T) (i j k : nat) (js : list nat).







End ShuffleBijection.





(** ** Regular expressions *)

Lemma matches_cat_inv (r1 r2 : regex) (s : jsstring) :
  matches (Cat r1 r2) s ->
  exists s1 s2, s = s1 ++ s2 /\ matches r1 s1 /\ matches r2 s2.
Proof. inversion 1; subst. eauto. Qed.

Lemma matches_alt_inv (r1 r2 : regex) (s : jsstring) :
  matches (Alt r1 r2) s -> matches r1 s \/ matches r2 s.
Proof. inversion 1; subst; auto. Qed.

Lemma matches_cls_inv (f : char16 -> bool) (s : jsstring) :
  matches (Cls f) s -> exists c, s = [c] /\ f c = true.
Proof. inversion 1; subst. eauto. Qed.

(** A non-empty match of [r*] starts with a non-empty match of [r]. *)
Lemma matches_star_cons_inv (r : regex) (c : char16) (s : jsstring) :
  matches (Star r) (c :: s) ->
  exists s1 s2, s = s1 ++ s2 /\ matches r (c :: s1) /\ matches (Star r) s2.
Proof.
  intros H. remember (Star r) as r' eqn:Hr. remember (c :: s) as t eqn:Ht.
  revert s Ht. induction H as [| | | | | |r0 s1 s2 H1 _ H2 IH2]; intros u Hu;
    try discriminate.
  injection Hr as ->.
  destruct s1 as [|c1 s1]; simpl in Hu.
  - apply IH2; [reflexivity|exact Hu].
  - injection Hu as -> <-. exists s1, s2. auto.
Qed.

Lemma nullable_matches (r : regex) : nullable r = true <-> matches r [].
Proof.
  induction r as [| |f|r1 IH1 r2 IH2|r1 IH1 r2 IH2|r IH]; simpl.
  - split; [discriminate|inversion 1].
  - split; [constructor|reflexivity].
  - split; [discriminate|inversion 1].
  - rewrite andb_true_iff, IH1, IH2. split.
    + intros [H1 H2]. apply (m_cat r1 r2 [] []); assumption.
    + intros H. apply matches_cat_inv in H as (s1 & s2 & Hs & H1 & H2).
      symmetry in Hs. apply app_eq_nil in Hs as [-> ->]. auto.
  - rewrite orb_true_iff, IH1, IH2. split.
    + intros [H|H]; [apply m_alt_l|apply m_alt_r]; exact H.
    + apply matches_alt_inv.
  - split; [constructor|reflexivity].
Qed.

Lemma deriv_matches (r : regex) (c : char16) (s : jsstring) :
  matches (deriv c r) s <-> matches r (c :: s).
Proof.
  revert s; induction r as [| |f|r1 IH1 r2 IH2|r1 IH1 r2 IH2|r IH]; intros s; simpl.
  - split; inversion 1.
  - split; inversion 1.
  - destruct (f c) eqn:Hf; split; intros H.
    + inversion H; subst. constructor. exact Hf.
    + inversion H; subst. constructor.
    + inversion H.
    + inversion H; subst. congruence.
  - assert (Hcat : matches (Cat (deriv c r1) r2) s
                   <-> exists s1 s2, s = s1 ++ s2 /\ matches r1 (c :: s1) /\ matches r2 s2).
    { split.
      - intros H. apply matches_cat_inv in H as (s1 & s2 & -> & H1 & H2).
        apply IH1 in H1. eauto.
      - intros (s1 & s2 & -> & H1 & H2). constructor; [apply IH1|]; assumption. }
    destruct (nullable r1) eqn:Hn.
    + split.
      * intros H. apply matches_alt_inv in H as [H|H].
        -- apply Hcat in H as (s1 & s2 & -> & H1 & H2).
           apply (m_cat r1 r2 (c :: s1) s2); assumption.
        -- apply IH2 in H. apply nullable_matches in Hn.
           apply (m_cat r1 r2 [] (c :: s)); assumption.
      * intros H. apply matches_cat_inv in H as (s1 & s2 & Hs & H1 & H2).
        destruct s1 as [|c1 s1]; simpl in Hs.
        -- subst s2. apply m_alt_r. apply IH2. exact H2.
        -- injection Hs as <- ->. apply m_alt_l. apply Hcat. eauto.
    + rewrite Hcat. split.
      * intros (s1 & s2 & -> & H1 & H2). apply (m_cat r1 r2 (c :: s1) s2); assumption.
      * intros H. apply matches_cat_inv in H as (s1 & s2 & Hs & H1 & H2).
        destruct s1 as [|c1 s1]; simpl in Hs.
        -- apply nullable_matches in H1. congruence.
        -- injection Hs as <- ->. eauto.
  - split.
    + intros H. apply matches_alt_inv in H as [H|H];
        [apply m_alt_l, IH1|apply m_alt_r, IH2]; exact H.
    + intros H. apply matches_alt_inv in H as [H|H];
        [apply m_alt_l, IH1|apply m_alt_r, IH2]; exact H.
  - split.
    + intros H. apply matches_cat_inv in H as (s1 & s2 & -> & H1 & H2).
      apply IH in H1. apply (m_star_cons r (c :: s1) s2); assumption.
    + intros H. apply matches_star_cons_inv in H as (s1 & s2 & -> & H1 & H2).
      constructor; [apply IH|]; assumption.
Qed.

(** The matcher decides the language of the pattern. *)
Lemma test_anchored_matches (r : regex) (s : jsstring) :
  test_anchored r s = true <-> matches r s.
Proof.
  revert r; induction s as [|c s IH]; intros r; simpl.
  - apply nullable_matches.
  - rewrite IH. apply deriv_matches.
Qed.

(** [[f]+] matches the non-empty strings of code units of the class. *)
Lemma matches_star_cls (f : char16 -> bool) (s : jsstring) :
  matches (Star (Cls f)) s <-> Forall (fun c => f c = true) s.
Proof.
  split.
  - revert f. induction s as [|c s IH]; intros f H; [constructor|].
    apply matches_star_cons_inv in H as (s1 & s2 & Hs & H1 & H2).
    apply matches_cls_inv in H1 as (c' & Hc & Hf).
    injection Hc as -> ->. simpl in Hs. subst s2.
    constructor; [exact Hf|]. apply IH. exact H2.
  - induction 1 as [|c s Hc _ IH]; [constructor|].
    apply (m_star_cons (Cls f) [c] s); [constructor; exact Hc|exact IH].
Qed.

Lemma matches_plus_cls (f : char16 -> bool) (s : jsstring) :
  matches (Plus (Cls f)) s <-> s <> [] /\ Forall (fun c => f c = true) s.
Proof.
  unfold Plus. split.
  - intros H. apply matches_cat_inv in H as (s1 & s2 & -> & H1 & H2).
    apply matches_cls_inv in H1 as (c & -> & Hf). apply matches_star_cls in H2.
    split; [discriminate|]. constructor; assumption.
  - intros [Hne H]. destruct H as [|c s Hc H]; [congruence|].
    apply (m_cat (Cls f) (Star (Cls f)) [c] s); [constructor; exact Hc|].
    apply matches_star_cls. exact H.
Qed.

Lemma matches_lit (c : char16) (s : jsstring) : matches (Lit c) s <-> s = [c].
Proof.
  unfold Lit. split.
  - intros H. apply matches_cls_inv in H as (c' & -> & Hc).
    apply N.eqb_eq in Hc. congruence.
  - intros ->. constructor. apply N.eqb_refl.
Qed.

(** C8: [validateEmail] is true exactly for the strings made of one or
    more code units that are neither white space nor [@], then [@], then
    one or more such code units, then a full stop, then one or more such
    code units; so it is true for [a@b.co] and false for [a@b] and for
    [a b@c.com]. *)
Theorem validateEmail_pattern (email : jsstring) :
  (validateEmail email = true
   <-> exists local domain tld,
        email = local ++ [at_sign] ++ domain ++ [full_stop] ++ tld
        /\ local <> [] /\ domain <> [] /\ tld <> []
        /\ Forall (fun c => is_space c = false /\ c <> at_sign) local
        /\ Forall (fun c => is_space c = false /\ c <> at_sign) domain
        /\ Forall (fun c => is_space c = false /\ c <> at_sign) tld)
  /\ validateEmail (str "a@b.co") = true
  /\ validateEmail (str "a@b") = false
  /\ validateEmail (str "a b@c.com") = false.
Proof.
  assert (Hcl : forall s, Forall (fun c => not_space_not_at c = true) s
                          <-> Forall (fun c => is_space c = false /\ c <> at_sign) s).
  { intros s. split; apply List.Forall_impl; intros c; unfold not_space_not_at;
      rewrite negb_true_iff, orb_false_iff, N.eqb_neq; auto. }
  split; [|repeat split].
  unfold validateEmail. rewrite test_anchored_matches. unfold emailRegex. split.
  - intros H.
    apply matches_cat_inv in H as (l & s1 & -> & Hl & H).
    apply matches_cat_inv in H as (a & s2 & -> & Ha & H).
    apply matches_cat_inv in H as (d & s3 & -> & Hd & H).
    apply matches_cat_inv in H as (f & t & -> & Hf & Ht).
    apply matches_lit in Ha as ->. apply matches_lit in Hf as ->.
    apply matches_plus_cls in Hl as [Hl1 Hl2].
    apply matches_plus_cls in Hd as [Hd1 Hd2].
    apply matches_plus_cls in Ht as [Ht1 Ht2].
    exists l, d, t. rewrite <- !Hcl. auto 10.
  - intros (l & d & t & -> & Hl & Hd & Ht & Fl & Fd & Ft).
    rewrite <- Hcl in Fl, Fd, Ft.
    repeat (apply m_cat); try (apply matches_lit; reflexivity);
      apply matches_plus_cls; auto.
Qed.

(** ** Global replacement *)

Lemma memb_false (c : char16) (s : jsstring) : memb c s = false <-> ~ In c s.
Proof.
  unfold memb. induction s as [|x s IH]; simpl.
  - split; [intros _ []|reflexivity].
  - rewrite orb_false_iff, IH, N.eqb_neq. split.
    + intros [H1 H2] [H|H]; [congruence|contradiction].
    + intros H. split; [intros ->; apply H; left; reflexivity|intros Hin; apply H; right; exact Hin].
Qed.

Lemma memb_app (c : char16) (s t : jsstring) : memb c (s ++ t) = memb c s || memb c t.
Proof. apply existsb_app. Qed.

Lemma prefixb_app (p t : jsstring) : prefixb p (p ++ t) = true.
Proof. induction p as [|x p IH]; simpl; [reflexivity|]. rewrite N.eqb_refl. exact IH. Qed.

Lemma prefixb_split (p s : jsstring) :
  prefixb p s = true -> s = p ++ drop (length p) s.
Proof.
  revert s; induction p as [|x p IH]; intros s H; simpl in *.
  - rewrite drop_0. reflexivity.
  - destruct s as [|y s]; [discriminate|].
    apply andb_true_iff in H as [Hxy Hp]. apply N.eqb_eq in Hxy as ->.
    simpl. f_equal. apply IH. exact Hp.
Qed.

(** A match of [p] in [a ++ b] that does not reach [b]. *)
Lemma prefixb_app_l (p a b : jsstring) : prefixb p a = true -> prefixb p (a ++ b) = true.
Proof.
  intros H. rewrite (prefixb_split p a H), <- app_assoc. apply prefixb_app.
Qed.

Lemma pattern_ok_inv (p : jsstring) :
  pattern_ok p = true -> p = ampersand :: tl p /\ memb ampersand (tl p) = false.
Proof.
  destruct p as [|c w]; simpl; [discriminate|].
  rewrite andb_true_iff, negb_true_iff, N.eqb_eq. intros [-> H]. auto.
Qed.

Lemma prefixb_not_amp (p : jsstring) (c : char16) (s : jsstring) :
  pattern_ok p = true -> c <> ampersand -> prefixb p (c :: s) = false.
Proof.
  intros Hp Hc. apply pattern_ok_inv in Hp as [Hp _]. rewrite Hp. cbn [prefixb].
  apply andb_false_iff. left. apply N.eqb_neq. congruence.
Qed.

Lemma scan_skip (rules : list rule) (u t : jsstring) :
  scan rules (length u) (u ++ t) = scan rules 0 t.
Proof. induction u as [|x u IH]; simpl; [reflexivity|exact IH]. Qed.

Lemma find_rule_In (rules : list rule) (s p r : jsstring) :
  find_rule rules s = Some (p, r) -> In (p, r) rules /\ prefixb p s = true.
Proof.
  induction rules as [|[p' r'] rules IH]; simpl; [discriminate|].
  destruct (prefixb p' s) eqn:E.
  - intros [= <- <-]. auto.
  - intros H. destruct (IH H). auto.
Qed.

Lemma find_rule_None (rules : list rule) (s : jsstring) :
  find_rule rules s = None <-> forall p r, In (p, r) rules -> prefixb p s = false.
Proof.
  induction rules as [|[p' r'] rules IH]; simpl.
  - split; [intros _ p r []|reflexivity].
  - destruct (prefixb p' s) eqn:E.
    + split; [discriminate|]. intros H. rewrite (H p' r') in E by (left; reflexivity).
      discriminate.
    + rewrite IH. split.
      * intros H p r [[= <- <-]|Hin]; [exact E|eapply H; exact Hin].
      * intros H p r Hin. eapply H. right. exact Hin.
Qed.

Lemma find_rule_app_Some (rules rules' : list rule) (s : jsstring) (pr : rule) :
  find_rule rules s = Some pr -> find_rule (rules ++ rules') s = Some pr.
Proof.
  induction rules as [|[p r] rules IH]; simpl; [discriminate|].
  destruct (prefixb p s); [trivial|exact IH].
Qed.

Lemma find_rule_app_None (rules rules' : list rule) (s : jsstring) :
  find_rule rules s = None -> find_rule (rules ++ rules') s = find_rule rules' s.
Proof.
  induction rules as [|[p r] rules IH]; simpl; [reflexivity|].
  destruct (prefixb p s); [discriminate|exact IH].
Qed.

(** The scan at a match, and where nothing matches. *)
Lemma scan_match (rules : list rule) (p r t : jsstring) :
  p <> [] -> find_rule rules (p ++ t) = Some (p, r) ->
  scan rules 0 (p ++ t) = r ++ scan rules 0 t.
Proof.
  intros Hp Hf. destruct p as [|c p]; [congruence|].
  change ((c :: p) ++ t) with (c :: (p ++ t)) in *.
  cbn [scan]. rewrite Hf. f_equal.
  replace (length (c :: p) - 1) with (length p) by (simpl; lia).
  apply scan_skip.
Qed.

Lemma scan_copy (rules : list rule) (c : char16) (s : jsstring) :
  find_rule rules (c :: s) = None -> scan rules 0 (c :: s) = c :: scan rules 0 s.
Proof. intros Hf. cbn [scan]. rewrite Hf. reflexivity. Qed.

Lemma scan_no_rules (s : jsstring) : scan [] 0 s = s.
Proof. induction s as [|c s IH]; simpl; [reflexivity|]. rewrite IH. reflexivity. Qed.

Lemma occurs_cons (p : jsstring) (c : char16) (s : jsstring) :
  occurs p s -> occurs p (c :: s).
Proof. intros (a & b & ->). exists (c :: a), b. reflexivity. Qed.

Lemma occurs_app_r (p u s : jsstring) : occurs p s -> occurs p (u ++ s).
Proof. intros (a & b & ->). exists (u ++ a), b. rewrite <- app_assoc. reflexivity. Qed.

Lemma occurs_prefix (p s : jsstring) : prefixb p s = true -> occurs p s.
Proof. intros H. exists [], (drop (length p) s). apply prefixb_split. exact H. Qed.

Section Scan.

Variable rules : list rule.
Hypothesis patterns_ok : forall p r, In (p, r) rules -> pattern_ok p = true.

Lemma find_rule_not_amp (c : char16) (s : jsstring) :
  c <> ampersand -> find_rule rules (c :: s) = None.
Proof.
  intros Hc. apply find_rule_None. intros p r Hin.
  apply prefixb_not_amp; [eapply patterns_ok; exact Hin|exact Hc].
Qed.

(** Code units other than the ampersand are copied. *)
Lemma scan_peel (w t : jsstring) :
  memb ampersand w = false -> scan rules 0 (w ++ t) = w ++ scan rules 0 t.
Proof.
  induction w as [|x w IH]; intros Hw; [reflexivity|].
  unfold memb in Hw. cbn [existsb] in Hw.
  apply orb_false_iff in Hw as [Hx Hw]. apply N.eqb_neq in Hx.
  change ((x :: w) ++ t) with (x :: (w ++ t)).
  rewrite scan_copy by (apply find_rule_not_amp; congruence).
  rewrite IH by exact Hw. reflexivity.
Qed.

(** A string that no replacement begins with and that stands at the
    start of the output stood at the start of the input. *)
Lemma prefix_scan_inv (w s : jsstring) :
  (forall p r, In (p, r) rules -> exists y r', r = y :: r' /\ memb y w = false) ->
  prefixb w (scan rules 0 s) = true -> prefixb w s = true.
Proof.
  revert s; induction w as [|x w IH]; intros s Hr H; [reflexivity|].
  destruct s as [|c s]; [simpl in H; discriminate|].
  destruct (find_rule rules (c :: s)) as [[p r]|] eqn:Hf.
  - exfalso. pose proof (find_rule_In _ _ _ _ Hf) as [Hin Hp].
    destruct (Hr p r Hin) as (y & r' & -> & Hy).
    assert (Hne : p <> []).
    { pose proof (patterns_ok p _ Hin) as Hok. destruct p; [discriminate|congruence]. }
    rewrite (prefixb_split p _ Hp) in H, Hf.
    rewrite (scan_match _ _ _ _ Hne Hf) in H.
    unfold memb in Hy. cbn [app prefixb existsb] in H, Hy.
    apply andb_true_iff in H as [Hxy _].
    apply orb_false_iff in Hy as [Hy _]. rewrite N.eqb_sym in Hy. congruence.
  - rewrite scan_copy in H by exact Hf. cbn [prefixb] in H |- *.
    apply andb_true_iff in H as [Hxc H]. rewrite Hxc. cbn [andb].
    apply IH; [|exact H].
    intros p r Hin. destruct (Hr p r Hin) as (y & r' & -> & Hy).
    exists y, r'. split; [reflexivity|]. unfold memb in Hy. cbn [existsb] in Hy.
    apply orb_false_iff in Hy as [_ Hy]. exact Hy.
Qed.

End Scan.

(** *** One more replacement behind a pass *)

Section OneMoreRule.

Variable done : list rule.
Variables p r : jsstring.
Hypothesis Hcompat : compatible done p = true.

Lemma compat_pattern : pattern_ok p = true.
Proof. unfold compatible in Hcompat. apply andb_true_iff in Hcompat as [H _]. exact H. Qed.

Lemma compat_done (q rq : jsstring) :
  In (q, rq) done -> pattern_ok q = true /\ replacement_ok (tl p) rq = true.
Proof.
  intros Hin. unfold compatible in Hcompat. apply andb_true_iff in Hcompat as [_ H].
  rewrite forallb_forall in H. specialize (H _ Hin). simpl in H.
  apply andb_true_iff in H. exact H.
Qed.

Lemma compat_patterns (q rq : jsstring) : In (q, rq) done -> pattern_ok q = true.
Proof. intros Hin. apply (compat_done q rq Hin). Qed.

Lemma compat_heads (q rq : jsstring) :
  In (q, rq) done -> exists y r', rq = y :: r' /\ memb y (tl p) = false.
Proof.
  intros Hin. destruct (compat_done q rq Hin) as [_ H].
  destruct rq as [|y r']; [discriminate|]. cbn [replacement_ok] in H.
  apply andb_true_iff in H as [H _]. apply negb_true_iff in H. eauto.
Qed.

(** The replacement of [p] does not match inside a copied stretch that
    holds no ampersand. *)
Lemma replace_all_peel (w t : jsstring) :
  memb ampersand w = false -> replace_all p r (w ++ t) = w ++ replace_all p r t.
Proof.
  apply scan_peel. intros q rq [[= <- <-]|[]]. exact compat_pattern.
Qed.

(** Where [p] does not match behind an ampersand in the input, it does
    not match behind it in the output of the pass either. *)
Lemma no_match_after_pass (s : jsstring) :
  prefixb p (ampersand :: scan done 0 s) = true -> prefixb (tl p) s = true.
Proof.
  destruct (pattern_ok_inv p compat_pattern) as [Hp _].
  rewrite Hp at 1. cbn [prefixb]. rewrite N.eqb_refl. cbn [andb].
  apply prefix_scan_inv; [exact compat_patterns|exact compat_heads].
Qed.

Lemma scan_snoc_aux (n : nat) (s : jsstring) :
  length s < n ->
  (forall q, In (q, [ampersand]) done -> ~ occurs (q ++ tl p) s) ->
  replace_all p r (scan done 0 s) = scan (done ++ [(p, r)]) 0 s.
Proof.
  revert s; induction n as [|n IH]; intros s Hn Hs; [lia|].
  destruct (pattern_ok_inv p compat_pattern) as [Hp Hw].
  assert (Hpne : p <> []) by (rewrite Hp; discriminate).
  destruct s as [|c s]; [reflexivity|].
  destruct (find_rule done (c :: s)) as [[q rq]|] eqn:Hf.
  - (* a rule of the pass matches *)
    pose proof (find_rule_In _ _ _ _ Hf) as [Hin Hq].
    destruct (compat_done q rq Hin) as [Hqok Hrq].
    assert (Hqne : q <> []) by (destruct q; [discriminate|congruence]).
    pose proof (prefixb_split q _ Hq) as Hsplit.
    set (t := drop (length q) (c :: s)) in *.
    assert (Hlt : length t < n).
    { apply (f_equal length) in Hsplit. rewrite length_app in Hsplit.
      destruct q; [congruence|]. simpl in *. lia. }
    assert (Ht : forall q', In (q', [ampersand]) done -> ~ occurs (q' ++ tl p) t).
    { intros q' Hq' Ho. apply (Hs q' Hq'). rewrite Hsplit. apply occurs_app_r. exact Ho. }
    rewrite Hsplit in Hf |- *.
    rewrite (scan_match _ _ _ _ Hqne Hf).
    rewrite (scan_match _ _ _ _ Hqne (find_rule_app_Some _ _ _ _ Hf)).
    rewrite <- (IH t Hlt Ht).
    destruct rq as [|y r']; [discriminate|]. cbn [replacement_ok] in Hrq.
    apply andb_true_iff in Hrq as [_ Hrq]. apply orb_true_iff in Hrq as [Hrq|Hrq].
    + apply str_eqb_eq in Hrq. injection Hrq as -> ->.
      change ([ampersand] ++ scan done 0 t) with (ampersand :: scan done 0 t).
      unfold replace_all. rewrite scan_copy; [reflexivity|].
      cbn [find_rule].
      destruct (prefixb p (ampersand :: scan done 0 t)) eqn:E; [exfalso|reflexivity].
      apply no_match_after_pass in E.
      apply (Hs q Hin). rewrite Hsplit.
      exists [], (drop (length (tl p)) t). cbn [app]. rewrite <- app_assoc. f_equal.
      apply prefixb_split. exact E.
    + apply negb_true_iff in Hrq. apply replace_all_peel. exact Hrq.
  - (* no rule of the pass matches *)
    assert (Hlt : length s < n) by (simpl in Hn; lia).
    assert (Ht : forall q', In (q', [ampersand]) done -> ~ occurs (q' ++ tl p) s).
    { intros q' Hq' Ho. apply (Hs q' Hq'). apply occurs_cons. exact Ho. }
    rewrite (scan_copy _ _ _ Hf).
    destruct (prefixb p (c :: s)) eqn:E.
    + (* [p] matches in the input *)
      pose proof (prefixb_split p _ E) as Hsplit.
      set (t := drop (length p) (c :: s)) in *.
      assert (Hlt' : length t < n).
      { apply (f_equal length) in Hsplit. rewrite length_app in Hsplit.
        destruct p; [congruence|]. simpl in *. lia. }
      assert (Ht' : forall q', In (q', [ampersand]) done -> ~ occurs (q' ++ tl p) t).
      { intros q' Hq' Ho. apply (Hs q' Hq'). rewrite Hsplit. apply occurs_app_r. exact Ho. }
      assert (Hf' : find_rule (done ++ [(p, r)]) (p ++ t) = Some (p, r)).
      { rewrite <- Hsplit. rewrite find_rule_app_None by exact Hf.
        cbn [find_rule]. rewrite E. reflexivity. }
      rewrite Hsplit. rewrite (scan_match _ _ _ _ Hpne Hf').
      rewrite <- (IH t Hlt' Ht').
      assert (Hcopy : c :: scan done 0 s = p ++ scan done 0 t).
      { rewrite <- (scan_copy _ _ _ Hf). rewrite Hsplit, Hp.
        change ((ampersand :: tl p) ++ t) with (ampersand :: (tl p ++ t)).
        rewrite scan_copy.
        - rewrite (scan_peel done compat_patterns) by exact Hw. reflexivity.
        - change (ampersand :: (tl p ++ t)) with ((ampersand :: tl p) ++ t).
          rewrite <- Hp, <- Hsplit. exact Hf. }
      rewrite Hcopy. unfold replace_all. apply scan_match; [exact Hpne|].
      cbn [find_rule]. rewrite prefixb_app. reflexivity.
    + (* nothing matches in the input *)
      assert (Hf' : find_rule (done ++ [(p, r)]) (c :: s) = None).
      { rewrite find_rule_app_None by exact Hf. cbn [find_rule]. rewrite E. reflexivity. }
      rewrite (scan_copy _ _ _ Hf'). rewrite <- (IH s Hlt Ht).
      unfold replace_all. apply scan_copy. cbn [find_rule].
      destruct (prefixb p (c :: scan done 0 s)) eqn:E'; [exfalso|reflexivity].
      destruct (N.eq_dec c ampersand) as [->|Hc].
      * apply no_match_after_pass in E'. rewrite Hp in E. cbn [prefixb] in E.
        rewrite N.eqb_refl, E' in E. discriminate.
      * rewrite (prefixb_not_amp p c _ compat_pattern Hc) in E'. discriminate.
Qed.

(** The replacement of [p] after a pass with the rules [done] is the
    pass with the rule for [p] added, on an input in which no ampersand
    written by the pass completes an occurrence of [p]. *)
Lemma scan_snoc (s : jsstring) :
  (forall q, In (q, [ampersand]) done -> ~ occurs (q ++ tl p) s) ->
  replace_all p r (scan done 0 s) = scan (done ++ [(p, r)]) 0 s.
Proof. apply (scan_snoc_aux (S (length s))). lia. Qed.

End OneMoreRule.

(** *** A chain of replacements and the single pass *)

Lemma replace_chain_cons (p r : jsstring) (rules : list rule) (s : jsstring) :
  replace_chain ((p, r) :: rules) s = replace_chain rules (replace_all p r s).
Proof. reflexivity. Qed.

Lemma chain_one_pass_from (todo done : list rule) (s : jsstring) :
  chain_ok done todo = true ->
  (forall w, In w (completions done todo) -> ~ occurs w s) ->
  replace_chain todo (scan done 0 s) = scan (done ++ todo) 0 s.
Proof.
  revert done; induction todo as [|[p r] todo IH]; intros done Hok Hs.
  - rewrite app_nil_r. reflexivity.
  - cbn [chain_ok] in Hok. apply andb_true_iff in Hok as [Hc Hok].
    cbn [completions] in Hs.
    rewrite replace_chain_cons, (scan_snoc done p r Hc).
    + rewrite IH; [|exact Hok|].
      * rewrite <- app_assoc. reflexivity.
      * intros w Hw. apply Hs. apply in_or_app. right. exact Hw.
    + intros q Hq. apply Hs. apply in_or_app. left.
      apply (in_map (fun pr => fst pr ++ tl p) _ (q, [ampersand])).
      apply filter_In. split; [exact Hq|]. reflexivity.
Qed.

(** A chain whose rules pass the check is the single pass, on an input
    without a completion. *)
Lemma chain_one_pass (rules : list rule) (s : jsstring) :
  chain_ok [] rules = true ->
  (forall w, In w (completions [] rules) -> ~ occurs w s) ->
  replace_chain rules s = replace_one_pass rules s.
Proof.
  intros Hok Hs. rewrite <- (scan_no_rules s) at 1.
  apply (chain_one_pass_from rules [] s Hok Hs).
Qed.

Lemma decodeHtmlEntities_chain (s : jsstring) :
  decodeHtmlEntities s = replace_chain entity_table s.
Proof. reflexivity. Qed.

Lemma entity_table_ok : chain_ok [] entity_table = true.
Proof. vm_compute. reflexivity. Qed.

Lemma entity_table_completions :
  completions [] entity_table = map (app (str "&amp;")) later_entity_tails.
Proof. vm_compute. reflexivity. Qed.

(** On an input without a doubly encoded entity, [decodeHtmlEntities] is
    one pass that replaces the entities of the table. *)
Lemma decodeHtmlEntities_single_pass (s : jsstring) :
  ~ doubly_encoded s -> decodeHtmlEntities s = replace_one_pass entity_table s.
Proof.
  intros Hs. rewrite decodeHtmlEntities_chain.
  apply chain_one_pass; [exact entity_table_ok|].
  rewrite entity_table_completions. intros w Hw Ho.
  apply in_map_iff in Hw as (t & <- & Ht). apply Hs. exists t. auto.
Qed.

Lemma occurs_app_l (p t s : jsstring) : occurs (p ++ t) s -> occurs p s.
Proof. intros (a & b & ->). exists a, (t ++ b). rewrite <- app_assoc. reflexivity. Qed.

(** A pass over a string in which no pattern occurs copies it. *)
Lemma scan_nothing_occurs (rules : list rule) (s : jsstring) :
  (forall p r, In (p, r) rules -> ~ occurs p s) -> scan rules 0 s = s.
Proof.
  induction s as [|c s IH]; intros Hs; [reflexivity|].
  rewrite scan_copy.
  - rewrite IH; [reflexivity|].
    intros p r Hin Ho. apply (Hs p r Hin). apply occurs_cons. exact Ho.
  - apply find_rule_None. intros p r Hin.
    destruct (prefixb p (c :: s)) eqn:E; [|reflexivity].
    exfalso. apply (Hs p r Hin). apply occurs_prefix. exact E.
Qed.

(** A string in which no entity of the table occurs is returned as it
    is. *)
Lemma decodeHtmlEntities_unchanged (s : jsstring) :
  (forall p, In p (map fst entity_table) -> ~ occurs p s) ->
  decodeHtmlEntities s = s.
Proof.
  intros Hs. rewrite decodeHtmlEntities_single_pass.
  - apply scan_nothing_occurs. intros p r Hin. apply Hs.
    apply (in_map fst _ _ Hin).
  - intros (t & _ & Ho). apply occurs_app_l in Ho. revert Ho. apply Hs.
    left. reflexivity.
Qed.

Lemma app_pivot_unique (x : char16) (l1 l2 k1 k2 : jsstring) :
  ~ In x l1 -> ~ In x l2 -> l1 ++ x :: k1 = l2 ++ x :: k2 -> l1 = l2 /\ k1 = k2.
Proof.
  revert l2; induction l1 as [|y l1 IH]; intros [|z l2] H1 H2 E; simpl in *.
  - injection E as ->. auto.
  - injection E as -> _. exfalso. apply H2. left. reflexivity.
  - injection E as -> _. exfalso. apply H1. left. reflexivity.
  - injection E as -> E. destruct (IH l2) as [-> ->]; auto.
Qed.

Lemma entity_shaped_inv (p : jsstring) :
  entity_shaped p = true ->
  exists body, p = ampersand :: body ++ [semicolon]
               /\ ~ In ampersand body /\ ~ In semicolon body.
Proof.
  destruct p as [|c w]; [discriminate|]. cbn [entity_shaped].
  destruct (rev w) as [|d body'] eqn:Hrev; [rewrite andb_false_r; discriminate|].
  rewrite !andb_true_iff, !negb_true_iff, !N.eqb_eq, !memb_false.
  intros [[-> Hw] [-> Hb]].
  assert (Hweq : w = rev body' ++ [semicolon]).
  { rewrite <- (rev_involutive w), Hrev. reflexivity. }
  exists (rev body'). split; [rewrite Hweq; reflexivity|]. split.
  - intros Hin. apply Hw. rewrite Hweq. apply in_or_app. left. exact Hin.
  - intros Hin. apply Hb. apply in_rev. exact Hin.
Qed.

(** An entity-shaped pattern occurs in [&name;] only as the whole of it. *)
Lemma entity_occurs_inv (p name : jsstring) :
  entity_shaped p = true ->
  ~ In ampersand name -> ~ In semicolon name ->
  occurs p (ampersand :: name ++ [semicolon]) ->
  p = ampersand :: name ++ [semicolon].
Proof.
  intros Hp Ha Hs (a & b & E).
  apply entity_shaped_inv in Hp as (body & -> & Hba & Hbs).
  destruct a as [|x a]; cbn [app] in E.
  - injection E as E. rewrite <- app_assoc in E. cbn [app] in E.
    apply app_pivot_unique in E as [-> _]; auto.
  - injection E as _ E. exfalso.
    assert (Hin : In ampersand (name ++ [semicolon])).
    { rewrite E. apply in_or_app. right. left. reflexivity. }
    apply in_app_or in Hin as [Hin|[Hin|[]]]; [auto|discriminate].
Qed.

Lemma entity_table_shaped : forallb (fun pr => entity_shaped (fst pr)) entity_table = true.
Proof. vm_compute. reflexivity. Qed.

(** An entity [&name;] that is not in the table is returned as it is. *)
Lemma decodeHtmlEntities_unknown_entity (name : jsstring) :
  ~ In ampersand name -> ~ In semicolon name ->
  ~ In (ampersand :: name ++ [semicolon]) (map fst entity_table) ->
  decodeHtmlEntities (ampersand :: name ++ [semicolon]) = ampersand :: name ++ [semicolon].
Proof.
  intros Ha Hs Hn. apply decodeHtmlEntities_unchanged. intros p Hp Ho.
  apply Hn. replace (ampersand :: name ++ [semicolon]) with p; [exact Hp|].
  apply entity_occurs_inv; try assumption.
  pose proof entity_table_shaped as H. rewrite forallb_forall in H.
  apply in_map_iff in Hp as (pr & <- & Hpr). apply (H pr Hpr).
Qed.

Lemma occursb_complete (p s : jsstring) : occurs p s -> occursb p s = true.
Proof.
  assert (Hp : forall t, prefixb p t = true -> occursb p t = true).
  { intros [|c t] H; simpl; rewrite H; reflexivity. }
  intros (a & b & ->). induction a as [|c a IH].
  - change ([] ++ p ++ b) with (p ++ b). apply Hp, prefixb_app.
  - change ((c :: a) ++ p ++ b) with (c :: (a ++ p ++ b)). cbn [occursb]. rewrite IH. apply orb_true_r.
Qed.

Lemma doubly_encodedb_complete (s : jsstring) :
  doubly_encodedb s = false -> ~ doubly_encoded s.
Proof.
  intros Hb (t & Ht & Ho). apply occursb_complete in Ho.
  unfold doubly_encodedb in Hb.
  assert (H : existsb (fun t => occursb (str "&amp;" ++ t) s) later_entity_tails = true).
  { apply existsb_exists. exists t. auto. }
  congruence.
Qed.

(** C5 (as stated, refuted): in [&amp;lt;] the one listed entity is
    [&amp;], and replacing exactly it leaves [&lt;], but
    [decodeHtmlEntities] returns [<]; and [&hellip;] is replaced by three
    full stops, not by the character it names. *)
Lemma decodeHtmlEntities_not_one_pass :
  decodeHtmlEntities (str "&amp;lt;") = str "<"
  /\ replace_one_pass html_entity_table (str "&amp;lt;") = str "&lt;"
  /\ decodeHtmlEntities (str "&amp;lt;")
     <> replace_one_pass html_entity_table (str "&amp;lt;")
  /\ decodeHtmlEntities (str "&hellip;") = str "..."
  /\ replace_one_pass html_entity_table (str "&hellip;") = [8230%N].
Proof.
  repeat split; try (vm_compute; reflexivity). vm_compute. discriminate.
Qed.

(** C5 (amended): [decodeHtmlEntities] works on the seventeen listed
    entities, each with the replacement text of the source (the character
    it names, except a plain space for [&nbsp;], three full stops for
    [&hellip;] and straight quotes for the four curly ones).  On an input
    in which no [&amp;] is followed by the rest of a later listed entity
    it replaces exactly the listed entities, in one pass, and leaves
    everything else unchanged; a string in which no listed entity occurs,
    and so any entity outside the list, is returned unchanged.
    [Tom &amp; Jerry &quot;Show&quot;] decodes to [Tom & Jerry "Show"] and
    [&foo;] is returned unchanged. *)
Theorem decodeHtmlEntities_listed_entities :
  map fst entity_table
  = [ str "&amp;"; str "&lt;"; str "&gt;"; str "&quot;"; str "&#039;"; str "&apos;";
      str "&nbsp;"; str "&copy;"; str "&reg;"; str "&trade;"; str "&hellip;";
      str "&mdash;"; str "&ndash;"; str "&lsquo;"; str "&rsquo;"; str "&ldquo;";
      str "&rdquo;" ]
  /\ map fst (List.filter (fun ab => negb (str_eqb (snd (fst ab)) (snd (snd ab))))
                (combine entity_table html_entity_table))
     = [ (str "&nbsp;", str " "); (str "&hellip;", str "...");
         (str "&lsquo;", str "'"); (str "&rsquo;", str "'");
         (str "&ldquo;", [34%N]); (str "&rdquo;", [34%N]) ]
  /\ (forall s, ~ doubly_encoded s ->
                decodeHtmlEntities s = replace_one_pass entity_table s)
  /\ (forall s, (forall p, In p (map fst entity_table) -> ~ occurs p s) ->
                decodeHtmlEntities s = s)
  /\ (forall name,
         ~ In ampersand name -> ~ In semicolon name ->
         ~ In (ampersand :: name ++ [semicolon]) (map fst entity_table) ->
         decodeHtmlEntities (ampersand :: name ++ [semicolon])
         = ampersand :: name ++ [semicolon])
  /\ decodeHtmlEntities (str "Tom &amp; Jerry &quot;Show&quot;")
     = str "Tom & Jerry " ++ [34%N] ++ str "Show" ++ [34%N]
  /\ decodeHtmlEntities (str "&foo;") = str "&foo;".
Proof.
  split; [reflexivity|]. split; [vm_compute; reflexivity|].
  split; [exact decodeHtmlEntities_single_pass|].
  split; [exact decodeHtmlEntities_unchanged|].
  split; [exact decodeHtmlEntities_unknown_entity|].
  split; vm_compute; reflexivity.
Qed.

Lemma decodeHtmlEntities_listed_entities_witness :
  ~ doubly_encoded (str "Tom &amp; Jerry &quot;Show&quot;")
  /\ decodeHtmlEntities (str "Tom &amp; Jerry &quot;Show&quot;")
     = replace_one_pass entity_table (str "Tom &amp; Jerry &quot;Show&quot;")
  /\ decodeHtmlEntities (str "&foo;") = str "&foo;".
Proof.
  destruct decodeHtmlEntities_listed_entities as (_ & _ & H1 & _ & H3 & _).
  assert (Hn : ~ doubly_encoded (str "Tom &amp; Jerry &quot;Show&quot;"))
    by (apply doubly_encodedb_complete; vm_compute; reflexivity).
  split; [exact Hn|]. split; [exact (H1 _ Hn)|].
  apply (H3 (str "foo")).
  - cbv. intuition discriminate.
  - cbv. intuition discriminate.
  - cbv. intuition discriminate.
Defined.

(** *** A replacement followed through a context *)

Lemma prefixb_no_straddle (q a : jsstring) (y : char16) (b : jsstring) :
  memb y q = false -> prefixb q (a ++ y :: b) = true -> prefixb q a = true.
Proof.
  revert a; induction q as [|x q IH]; intros a Hy H; [reflexivity|].
  unfold memb in Hy. cbn [existsb] in Hy. apply orb_false_iff in Hy as [Hyx Hy].
  destruct a as [|c a]; cbn [app prefixb] in H |- *.
  - apply andb_true_iff in H as [Hxy _]. rewrite N.eqb_sym in Hyx. congruence.
  - apply andb_true_iff in H as [Hxc H]. rewrite Hxc. cbn [andb].
    apply IH; assumption.
Qed.

Lemma clash_no_match (p m b : jsstring) : clash p m = true -> prefixb p (m ++ b) = false.
Proof.
  revert m; induction p as [|x p IH]; intros [|y m] H; try discriminate.
  cbn [clash] in H. cbn [app prefixb].
  destruct (N.eqb x y); cbn [negb orb andb] in *; [apply IH; exact H|reflexivity].
Qed.

Section OneRule.

Variables p r : jsstring.
Hypothesis Hp : pattern_ok p = true.

Lemma one_rule_ok (q rq : jsstring) : In (q, rq) [(p, r)] -> pattern_ok q = true.
Proof. intros [[= <- <-]|[]]. exact Hp. Qed.

Lemma replace_all_copy (w t : jsstring) :
  memb ampersand w = false -> replace_all p r (w ++ t) = w ++ replace_all p r t.
Proof. apply scan_peel, one_rule_ok. Qed.

Lemma replace_all_match (t : jsstring) : replace_all p r (p ++ t) = r ++ replace_all p r t.
Proof.
  unfold replace_all. apply scan_match.
  - destruct p; [discriminate|congruence].
  - cbn [find_rule]. rewrite prefixb_app. reflexivity.
Qed.

Lemma replace_all_no_match (c : char16) (t : jsstring) :
  prefixb p (c :: t) = false -> replace_all p r (c :: t) = c :: replace_all p r t.
Proof.
  intros H. unfold replace_all. apply scan_copy. cbn [find_rule]. rewrite H. reflexivity.
Qed.

(** No match reaches across a code unit that the pattern holds at most
    at its start. *)
Lemma replace_all_app_aux (n : nat) (a : jsstring) (y : char16) (b : jsstring) :
  length a < n -> memb y (tl p) = false ->
  replace_all p r (a ++ y :: b) = replace_all p r a ++ replace_all p r (y :: b).
Proof.
  revert a; induction n as [|n IH]; intros a Hn Hy; [lia|].
  destruct a as [|c a]; [reflexivity|].
  destruct (prefixb p (c :: a)) eqn:E.
  - pose proof (prefixb_split p _ E) as Hsplit.
    set (t := drop (length p) (c :: a)) in *.
    assert (Hlt : length t < n).
    { apply (f_equal length) in Hsplit. rewrite length_app in Hsplit.
      destruct p; [discriminate|]. simpl in *. lia. }
    rewrite Hsplit, <- app_assoc, !replace_all_match, <- app_assoc.
    f_equal. apply IH; assumption.
  - assert (E' : prefixb p ((c :: a) ++ y :: b) = false).
    { destruct (prefixb p ((c :: a) ++ y :: b)) eqn:E'; [|reflexivity].
      destruct (pattern_ok_inv p Hp) as [Hpe _].
      rewrite Hpe in E, E'. cbn [app prefixb] in E, E'.
      apply andb_true_iff in E' as [Hc E']. rewrite Hc in E. cbn [andb] in E.
      apply prefixb_no_straddle in E'; [congruence|exact Hy]. }
    change ((c :: a) ++ y :: b) with (c :: (a ++ y :: b)) in *.
    rewrite !replace_all_no_match by assumption.
    cbn [app]. f_equal. apply IH; [simpl in Hn; lia|exact Hy].
Qed.

Lemma replace_all_app (a : jsstring) (y : char16) (b : jsstring) :
  memb y (tl p) = false ->
  replace_all p r (a ++ y :: b) = replace_all p r a ++ replace_all p r (y :: b).
Proof. apply (replace_all_app_aux (S (length a))). lia. Qed.

End OneRule.

(** [middle_step] is what the replacement makes of [m] in any context. *)
Lemma middle_step_sound (p r m m' : jsstring) :
  middle_step p r m = Some m' ->
  forall a b, replace_all p r (a ++ m ++ b) = replace_all p r a ++ m' ++ replace_all p r b.
Proof.
  intros H a b. destruct m as [|y m1]; [discriminate|]. cbn [middle_step] in H.
  destruct (pattern_ok p) eqn:Hp; [|discriminate]. cbn [negb orb] in H.
  destruct (memb y (tl p)) eqn:Hy; [discriminate|].
  change ((y :: m1) ++ b) with (y :: (m1 ++ b)).
  rewrite (replace_all_app p r Hp a y (m1 ++ b) Hy). f_equal.
  change (y :: (m1 ++ b)) with ((y :: m1) ++ b).
  destruct (prefixb p (y :: m1)) eqn:E.
  - destruct (memb ampersand (drop (length p) (y :: m1))) eqn:Hd; [discriminate|].
    injection H as <-.
    rewrite (prefixb_split p _ E) at 1.
    rewrite <- !app_assoc, (replace_all_match p r Hp), (replace_all_copy p r Hp _ _ Hd).
    reflexivity.
  - destruct (memb ampersand (y :: m1)) eqn:Hm; cbn [negb] in H.
    + destruct (N.eqb_spec y ampersand) as [->|]; [|discriminate]. cbn [andb] in H.
      destruct (memb ampersand m1) eqn:Hm1; [discriminate|]. cbn [negb andb] in H.
      destruct (clash p (ampersand :: m1)) eqn:Hc; [|discriminate].
      injection H as <-.
      change ((ampersand :: m1) ++ b) with (ampersand :: (m1 ++ b)).
      rewrite (replace_all_no_match p r)
        by (exact (clash_no_match p (ampersand :: m1) b Hc)).
      rewrite (replace_all_copy p r Hp _ _ Hm1). reflexivity.
    + injection H as <-. apply (replace_all_copy p r Hp _ _ Hm).
Qed.

Lemma chain_middle_sound (rules : list rule) (m m' : jsstring) :
  chain_middle rules m = Some m' ->
  forall a b,
    replace_chain rules (a ++ m ++ b)
    = replace_chain rules a ++ m' ++ replace_chain rules b.
Proof.
  revert m; induction rules as [|[p r] rules IH]; intros m H a b.
  - injection H as <-. reflexivity.
  - cbn [chain_middle] in H.
    destruct (middle_step p r m) as [m1|] eqn:Hm; [|discriminate].
    rewrite !replace_chain_cons, (middle_step_sound p r m m1 Hm).
    apply IH. exact H.
Qed.

Lemma double_decoding_checked : double_decoding_check = true.
Proof. vm_compute. reflexivity. Qed.

(** C10: [&amp;lt;] is returned as [<], not as [&lt;], which one pass
    over the table would give; and wherever [&amp;] is followed by the rest
    [X;] of a later entity [&X;] of the chain, [&amp;X;] is replaced by the
    text for [&X;], whatever stands before and behind it. *)
Theorem decodeHtmlEntities_decodes_twice :
  decodeHtmlEntities (str "&amp;lt;") = str "<"
  /\ replace_one_pass entity_table (str "&amp;lt;") = str "&lt;"
  /\ Forall
       (fun pr =>
          forall before behind,
            decodeHtmlEntities (before ++ (str "&amp;" ++ tl (fst pr)) ++ behind)
            = decodeHtmlEntities before ++ snd pr ++ decodeHtmlEntities behind)
       (tl entity_table).
Proof.
  split; [vm_compute; reflexivity|]. split; [vm_compute; reflexivity|].
  apply Forall_forall. intros pr Hin before behind.
  pose proof double_decoding_checked as H. unfold double_decoding_check in H.
  rewrite forallb_forall in H. apply list_elem_of_In in Hin. specialize (H pr Hin).
  destruct (chain_middle entity_table (str "&amp;" ++ tl (fst pr))) as [m'|] eqn:Hm;
    [|discriminate].
  apply str_eqb_eq in H. subst m'.
  rewrite !decodeHtmlEntities_chain. apply chain_middle_sound. exact Hm.
Qed.


(** ** Worked examples *)

Example shuffleArray_zero_draws :
  fst (shuffleArray [1; 2; 3; 4] zero_rng) = [2; 3; 4; 1].
Proof. reflexivity. Qed.

Example index_vectors_of_three :
  index_vectors 2 = [[0; 0]; [0; 1]; [1; 0]; [1; 1]; [2; 0]; [2; 1]].
Proof. reflexivity. Qed.

Example decode_each_entity :
  map (fun pr => decodeHtmlEntities (fst pr)) entity_table = map snd entity_table.
Proof. vm_compute. reflexivity. Qed.

Example decode_twice_amp : decodeHtmlEntities (str "&amp;amp;") = str "&amp;".
Proof. vm_compute. reflexivity. Qed.

Example validateEmail_two_dots : validateEmail (str "a@b.c.d") = true.
Proof. vm_compute. reflexivity. Qed.

Example validateEmail_two_ats : validateEmail (str "a@b@c.d") = false.
Proof. vm_compute. reflexivity. Qed.

Example validateEmail_no_break_space : validateEmail (str "a@b." ++ [160%N]) = false.
Proof. vm_compute. reflexivity. Qed.

Example score_one_of_eight :
  score_of_counts 1 8 = JsNumber.of_Z 13 /\ score_of_counts 1 3 = JsNumber.of_Z 33.
Proof. split; vm_compute; reflexivity. Qed.

Example results_of_three_questions :
  let r := createQuizResults (sample_session three_questions 600) 0 in
  (QuizResults.correct_answers r, QuizResults.incorrect_answers r,
   QuizResults.unanswered_questions r, QuizResults.score r, QuizResults.time_taken r)
  = (1, 1, 1, JsNumber.of_Z 50, 1200%Z).
Proof. vm_compute. reflexivity. Qed.

(** * Further properties *)

(** ** Time formatting *)

Lemma uint_chars_inj (d d' : Decimal.uint) : uint_chars d = uint_chars d' -> d = d'.
Proof.
  revert d'; induction d; intros d' H; destruct d'; simpl in H;
    try discriminate; try reflexivity; injection H as H; f_equal; auto.
Qed.

Lemma uint_chars_digits (d : Decimal.uint) :
  Forall (fun c => is_digit c = true) (uint_chars d).
Proof. induction d; simpl; constructor; auto. Qed.

Lemma Number_toString_inj (n n' : nat) :
  Number_toString n = Number_toString n' -> n = n'.
Proof.
  unfold Number_toString. intros H.
  apply DecimalNat.Unsigned.to_uint_inj, uint_chars_inj, H.
Qed.

Lemma Number_toString_digits (n : nat) :
  Forall (fun c => is_digit c = true) (Number_toString n).
Proof. apply uint_chars_digits. Qed.

Lemma Number_toString_nonempty (n : nat) : Number_toString n <> [].
Proof.
  unfold Number_toString. intros H.
  destruct (Nat.to_uint n) eqn:E; simpl in H; try discriminate.
  pose proof (DecimalNat.Unsigned.of_to n) as Hn.
  pose proof (DecimalNat.Unsigned.to_of (Nat.to_uint n)) as Hu.
  rewrite Hn, E in Hu. discriminate.
Qed.

(** A number is written without a zero in front, except 0 itself. *)
Lemma Number_toString_leading_zero (n : nat) (s : jsstring) :
  Number_toString n = 48%N :: s -> n = 0 /\ s = [].
Proof.
  unfold Number_toString. intros H.
  pose proof (DecimalNat.Unsigned.of_to n) as Hn.
  pose proof (DecimalNat.Unsigned.to_of (Nat.to_uint n)) as Hu.
  rewrite Hn in Hu.
  destruct (Nat.to_uint n) as [|d| | | | | | | | |] eqn:E; simpl in H; try discriminate.
  injection H as H.
  rewrite DecimalFacts.unorm_D0 in Hu.
  assert (Hd : d = Decimal.Nil).
  { destruct (DecimalFacts.unorm_0 d) as [_ H0].
    destruct (Decimal.nzhead d) eqn:Hz;
      [rewrite (H0 eq_refl) in Hu; congruence
      |exfalso; apply (DecimalFacts.nzhead_nonzero d u); exact Hz
      |exfalso; rewrite DecimalFacts.unorm_nzhead in Hu by (rewrite Hz; discriminate);
       rewrite Hz in Hu; discriminate ..]. }
  subst d. simpl in H. split; [|congruence].
  rewrite <- Hn. reflexivity.
Qed.

Lemma padStart_long (n : nat) (pad s : jsstring) : n <= length s -> padStart n pad s = s.
Proof.
  intros H. unfold padStart. replace (n - length s) with 0 by lia. reflexivity.
Qed.

(** [padStart(2, '0')] of the digits of a number. *)
Lemma pad2_cases (n : nat) :
  (exists c, Number_toString n = [c]
             /\ padStart 2 (str "0") (Number_toString n) = [48%N; c])
  \/ (2 <= length (Number_toString n)
      /\ padStart 2 (str "0") (Number_toString n) = Number_toString n).
Proof.
  pose proof (Number_toString_nonempty n) as Hne.
  destruct (Number_toString n) as [|c [|c' s]] eqn:E; [congruence| |].
  - left. exists c. split; reflexivity.
  - right. split; [simpl; lia|]. apply padStart_long. simpl. lia.
Qed.

Lemma pad2_inj (n n' : nat) :
  padStart 2 (str "0") (Number_toString n) = padStart 2 (str "0") (Number_toString n') ->
  n = n'.
Proof.
  intros H.
  destruct (pad2_cases n) as [(c & E & P)|[L P]],
           (pad2_cases n') as [(c' & E' & P')|[L' P']]; rewrite P, P' in H.
  - apply Number_toString_inj. congruence.
  - exfalso. symmetry in H. apply Number_toString_leading_zero in H as [_ [=]].
  - exfalso. apply Number_toString_leading_zero in H as [_ [=]].
  - apply Number_toString_inj. exact H.
Qed.

Lemma pad2_digits (n : nat) :
  Forall (fun c => is_digit c = true) (padStart 2 (str "0") (Number_toString n)).
Proof.
  pose proof (Number_toString_digits n) as Hd.
  destruct (pad2_cases n) as [(c & E & ->)|[_ ->]]; [|exact Hd].
  rewrite E in Hd. constructor; [reflexivity|exact Hd].
Qed.

Lemma digits_without (x : char16) (s : jsstring) :
  is_digit x = false -> Forall (fun c => is_digit c = true) s -> ~ In x s.
Proof.
  intros Hx Hs Hin. rewrite List.Forall_forall in Hs. specialize (Hs x Hin). congruence.
Qed.

Lemma div_mod_60_inj (a b : nat) : a / 60 = b / 60 -> a mod 60 = b mod 60 -> a = b.
Proof.
  intros Hd Hm.
  rewrite (Nat.div_mod_eq a 60), (Nat.div_mod_eq b 60), Hd, Hm. reflexivity.
Qed.

(** X1: two different times never look the same: [formatTime] gives
    different strings for different numbers of seconds. *)
Theorem formatTime_injective (a b : nat) : formatTime a = formatTime b <-> a = b.
Proof.
  split; [|intros ->; reflexivity].
  unfold formatTime. cbv zeta. intros H.
  change (str ":") with [58%N] in H. cbn [app] in H.
  apply app_pivot_unique in H as [Hm Hs];
    try (apply digits_without; [reflexivity|apply pad2_digits]).
  apply pad2_inj in Hm. apply pad2_inj in Hs. apply div_mod_60_inj; assumption.
Qed.

(** The two digits [padStart(2, '0')] gives for a number below 100. *)
Lemma pad2_below_100 (n : nat) :
  n < 100 ->
  padStart 2 (str "0") (Number_toString n) = [digit_char (n / 10); digit_char (n mod 10)].
Proof.
  intros Hn.
  assert (H : forallb
                (fun k => str_eqb (padStart 2 (str "0") (Number_toString k))
                                  [digit_char (k / 10); digit_char (k mod 10)])
                (seq 0 100) = true) by (vm_compute; reflexivity).
  rewrite forallb_forall in H. apply str_eqb_eq, H, in_seq. lia.
Qed.

Lemma short_uint_small (d : Decimal.uint) :
  length (uint_chars d) <= 2 -> Nat.of_uint d < 100.
Proof.
  intros H.
  destruct d; simpl in H; try (cbv; lia);
    destruct d; simpl in H; try (cbv; lia);
    destruct d; simpl in H; try lia; cbv; lia.
Qed.

(** A number from 100 on has at least three digits. *)
Lemma Number_toString_long (n : nat) : 100 <= n -> 3 <= length (Number_toString n).
Proof.
  intros Hn. unfold Number_toString.
  destruct (le_lt_dec 3 (length (uint_chars (Nat.to_uint n)))) as [H|H]; [exact H|].
  exfalso. pose proof (short_uint_small (Nat.to_uint n) ltac:(lia)) as Hs.
  rewrite DecimalNat.Unsigned.of_to in Hs. lia.
Qed.

(** X2: below 100 minutes [formatTime] gives the five code units
    [MM:SS], two digits of minutes and two of seconds (so 125 gives
    [02:05] and 0 gives [00:00]); from 100 minutes on the minutes are not
    cut and the string is longer. *)
Theorem formatTime_shape (seconds : nat) :
  (seconds / 60 < 100 ->
   formatTime seconds
   = [digit_char (seconds / 60 / 10); digit_char (seconds / 60 mod 10); 58%N;
      digit_char (seconds mod 60 / 10); digit_char (seconds mod 60 mod 10)])
  /\ (100 <= seconds / 60 -> 5 < length (formatTime seconds)).
Proof.
  assert (Hr : seconds mod 60 < 100).
  { pose proof (Nat.mod_upper_bound seconds 60). lia. }
  unfold formatTime. cbv zeta. rewrite (pad2_below_100 _ Hr). split.
  - intros Hs. rewrite (pad2_below_100 _ Hs). reflexivity.
  - intros Hs. rewrite !length_app. cbn [length str].
    pose proof (Number_toString_long _ Hs) as Hl.
    rewrite padStart_long by lia. lia.
Qed.

Lemma formatTime_shape_witness :
  formatTime 125 = str "02:05" /\ formatTime 0 = str "00:00"
  /\ 5 < length (formatTime (100 * 60)).
Proof.
  split; [|split].
  - exact (proj1 (formatTime_shape 125) ltac:(vm_compute; lia)).
  - exact (proj1 (formatTime_shape 0) ltac:(vm_compute; lia)).
  - exact (proj2 (formatTime_shape (100 * 60)) ltac:(vm_compute; lia)).
Defined.

(** X3: [formatTimeTaken] too gives different strings for different
    numbers of seconds. *)
Theorem formatTimeTaken_injective (a b : nat) :
  formatTimeTaken a = formatTimeTaken b <-> a = b.
Proof.
  split; [|intros ->; reflexivity].
  unfold formatTimeTaken. cbv zeta. intros H.
  change (str "m ") with [109%N; 32%N] in H. change (str "s") with [115%N] in H.
  cbn [app] in H.
  apply app_pivot_unique in H as [Hm Hs];
    try (apply digits_without; [reflexivity|apply Number_toString_digits]).
  injection Hs as Hs. apply app_inv_tail in Hs.
  apply Number_toString_inj in Hm. apply Number_toString_inj in Hs.
  apply div_mod_60_inj; assumption.
Qed.

(** ** The countdown *)

Lemma tick_max (t : Z) : (0 <= t)%Z -> tick t = Z.max 0 (t - 1).
Proof. intros Ht. unfold tick. destruct (Z.leb_spec t 1); lia. Qed.

Lemma tick_iter (n : nat) (t : Z) :
  (0 <= t)%Z -> Nat.iter n tick t = Z.max 0 (t - Z.of_nat n).
Proof.
  intros Ht. induction n as [|n IH].
  - simpl. lia.
  - rewrite Nat.iter_succ, IH, tick_max by lia. lia.
Qed.

(** X4: [n] ticks of the countdown take a time [t >= 0] to [t - n], and
    to 0 once [n] reaches [t]: the time remaining is never negative and
    stays at 0. *)
Theorem countdown_after_ticks (n : nat) (t : Z) :
  (0 <= t)%Z -> Nat.iter n tick t = Z.max 0 (t - Z.of_nat n).
Proof. apply tick_iter. Qed.

Lemma countdown_after_ticks_witness :
  Nat.iter 1800 tick TOTAL_TIME = 0%Z /\ Nat.iter 1801 tick TOTAL_TIME = 0%Z
  /\ Nat.iter 60 tick TOTAL_TIME = 1740%Z.
Proof.
  assert (H : (0 <= TOTAL_TIME)%Z) by (unfold TOTAL_TIME; lia).
  split; [|split].
  - rewrite (countdown_after_ticks 1800 TOTAL_TIME H). reflexivity.
  - rewrite (countdown_after_ticks 1801 TOTAL_TIME H). reflexivity.
  - rewrite (countdown_after_ticks 60 TOTAL_TIME H). reflexivity.
Defined.


(** ** The session handlers *)

Lemma map_index_length {A B} (f : A -> nat -> B) (k : nat) (l : list A) :
  length (map_index f k l) = length l.
Proof. revert k; induction l as [|x l IH]; intros k; simpl; [reflexivity|]. rewrite IH. reflexivity. Qed.

Lemma map_index_lookup {A B} (f : A -> nat -> B) (k i : nat) (l : list A) :
  map_index f k l !! i = (fun x => f x (k + i)) <$> l !! i.
Proof.
  revert k i; induction l as [|x l IH]; intros k [|i]; simpl; try reflexivity.
  - rewrite Nat.add_0_r. reflexivity.
  - rewrite IH. replace (S k + i) with (k + S i) by lia. reflexivity.
Qed.

(** A projection that the callback keeps is kept along the array. *)
Lemma map_index_proj {A C} (f : A -> nat -> A) (proj : A -> C) (k : nat) (l : list A) :
  (forall x i, proj (f x i) = proj x) -> map proj (map_index f k l) = map proj l.
Proof.
  intros H. revert k; induction l as [|x l IH]; intros k; simpl; [reflexivity|].
  rewrite H, IH. reflexivity.
Qed.

Lemma map_index_Forall {A} (f : A -> nat -> A) (P : A -> Prop) (k : nat) (l : list A) :
  (forall x i, P x -> P (f x i)) -> Forall P l -> Forall P (map_index f k l).
Proof.
  intros H Hl. revert k; induction Hl as [|x l Hx _ IH]; intros k; simpl; constructor; auto.
Qed.

Lemma filter_map_length {A B} (f : A -> B) (P : B -> bool) (l : list A) :
  length (List.filter P (map f l)) = length (List.filter (fun x => P (f x)) l).
Proof.
  induction l as [|x l IH]; simpl; [reflexivity|]. destruct (P (f x)); simpl; rewrite IH; reflexivity.
Qed.

Lemma filter_ext_length {A} (P Q : A -> bool) (l : list A) :
  Forall (fun x => P x = Q x) l -> length (List.filter P l) = length (List.filter Q l).
Proof.
  induction 1 as [|x l Hx _ IH]; simpl; [reflexivity|].
  rewrite Hx. destruct (Q x); simpl; rewrite IH; reflexivity.
Qed.

Lemma filter_negb_length {A} (P : A -> bool) (l : list A) :
  length (List.filter (fun x => negb (P x)) l) = length l - length (List.filter P l).
Proof.
  induction l as [|x l IH]; simpl; [reflexivity|].
  pose proof (List.filter_length_le P l).
  destruct (P x); simpl; rewrite IH; lia.
Qed.

Lemma count_by_projection {A C} (proj : A -> C) (P : C -> bool) (l l' : list A) :
  map proj l = map proj l' ->
  length (List.filter (fun x => P (proj x)) l) = length (List.filter (fun x => P (proj x)) l').
Proof.
  intros H. rewrite <- !(filter_map_length proj P), H. reflexivity.
Qed.

(** The two counts that [calculateScore] reads, as projections. *)
Lemma answered_count_proj (qs : list ProcessedQuestion.t) :
  answered_count qs
  = length (List.filter (fun b : bool => b) (map ProcessedQuestion.is_answered qs)).
Proof. unfold answered_count. rewrite filter_map_length. reflexivity. Qed.

(** [calculateScore] reads the flags, answers and correct answers only. *)
Lemma calculateScore_scored_part (qs qs' : list ProcessedQuestion.t) :
  map scored_part qs = map scored_part qs' -> calculateScore qs = calculateScore qs'.
Proof.
  intros H. rewrite !calculateScore_counts. f_equal.
  - unfold correct_count.
    apply (count_by_projection scored_part
             (fun t => fst (fst t)
                       && match snd (fst t) with
                          | Some u => str_eqb u (snd t)
                          | None => false
                          end) _ _ H).
  - unfold answered_count.
    apply (count_by_projection scored_part (fun t => fst (fst t)) _ _ H).
Qed.

Lemma navigate_results (z : Z) (st : QuizState.t) (now : Z) :
  createQuizResults (QuizState.session (handleQuestionNavigate z st)) now
  = createQuizResults (QuizState.session st) now.
Proof.
  unfold createQuizResults, handleQuestionNavigate.
  cbn [QuizState.session with_questions QuizSession.questions QuizSession.user_email
       QuizSession.time_remaining QuizSession.total_questions].
  set (f := fun (q : ProcessedQuestion.t) (index : nat) =>
              if (Z.of_nat index =? z)%Z then with_visited q true else q).
  assert (Hr : map questionResult
                 (map_index f 0 (QuizSession.questions (QuizState.session st)))
               = map questionResult (QuizSession.questions (QuizState.session st))).
  { apply map_index_proj. intros q i. unfold f. destruct (Z.of_nat i =? z)%Z; reflexivity. }
  assert (Hs : calculateScore (map_index f 0 (QuizSession.questions (QuizState.session st)))
               = calculateScore (QuizSession.questions (QuizState.session st))).
  { apply calculateScore_scored_part, map_index_proj.
    intros q i. unfold f. destruct (Z.of_nat i =? z)%Z; reflexivity. }
  rewrite Hr, Hs. reflexivity.
Qed.

(** X6: moving between questions (by the grid, Next or Previous) never
    changes the results the session would give: score, counts and
    question results are those of the session before the move. *)
Theorem navigation_keeps_results (st : QuizState.t) (now : Z) :
  (forall questionIndex,
      createQuizResults (QuizState.session (handleQuestionNavigate questionIndex st)) now
      = createQuizResults (QuizState.session st) now)
  /\ createQuizResults (QuizState.session (handleNextQuestion st)) now
     = createQuizResults (QuizState.session st) now
  /\ createQuizResults (QuizState.session (handlePreviousQuestion st)) now
     = createQuizResults (QuizState.session st) now.
Proof.
  split; [|split].
  - intros z. apply navigate_results.
  - unfold handleNextQuestion. cbv zeta.
    destruct (_ <? _)%Z; [apply navigate_results|reflexivity].
  - unfold handlePreviousQuestion. cbv zeta.
    destruct (_ <=? _)%Z; [apply navigate_results|reflexivity].
Qed.

Lemma handleAnswerSelect_questions (questionId : nat) (answer : jsstring) (st : QuizState.t) :
  QuizSession.questions (QuizState.session (handleAnswerSelect questionId answer st))
  = map (fun q => if Nat.eqb (ProcessedQuestion.id q) questionId
                  then with_answer q answer else q)
        (QuizSession.questions (QuizState.session st)).
Proof. reflexivity. Qed.

(** X7: of two answers given to the same question the later one stands,
    and answers given to different questions do not depend on their
    order. *)
Theorem handleAnswerSelect_composes (st : QuizState.t) (id1 id2 : nat) (a b : jsstring) :
  handleAnswerSelect id1 b (handleAnswerSelect id1 a st) = handleAnswerSelect id1 b st
  /\ (id1 <> id2 ->
      handleAnswerSelect id1 a (handleAnswerSelect id2 b st)
      = handleAnswerSelect id2 b (handleAnswerSelect id1 a st)).
Proof.
  split.
  - unfold handleAnswerSelect. cbn [QuizState.session QuizState.current_question_index
                                     with_questions QuizSession.questions
                                     QuizSession.user_email QuizSession.time_remaining
                                     QuizSession.total_questions].
    f_equal. unfold with_questions. cbn. f_equal. rewrite map_map. apply map_ext.
    intros q. destruct (Nat.eqb_spec (ProcessedQuestion.id q) id1) as [E|E].
    + cbn [ProcessedQuestion.id with_answer]. rewrite E, Nat.eqb_refl. reflexivity.
    + apply Nat.eqb_neq in E. rewrite E. reflexivity.
  - intros Hne. unfold handleAnswerSelect.
    cbn [QuizState.session QuizState.current_question_index
         with_questions QuizSession.questions
         QuizSession.user_email QuizSession.time_remaining
         QuizSession.total_questions].
    f_equal. unfold with_questions. cbn. f_equal. rewrite !map_map. apply map_ext.
    intros q.
    destruct (Nat.eqb_spec (ProcessedQuestion.id q) id1) as [E1|E1];
      destruct (Nat.eqb_spec (ProcessedQuestion.id q) id2) as [E2|E2];
      cbn [ProcessedQuestion.id with_answer];
      repeat match goal with
             | |- context [Nat.eqb ?x ?y] => destruct (Nat.eqb_spec x y)
             end;
      try congruence; reflexivity.
Qed.

Lemma handleAnswerSelect_composes_witness :
  let st := startSession (str "a@b.co") three_questions in
  2 <> 3
  /\ handleAnswerSelect 2 (str "C") (handleAnswerSelect 3 (str "D") st)
     = handleAnswerSelect 3 (str "D") (handleAnswerSelect 2 (str "C") st).
Proof.
  cbv zeta. split; [lia|].
  exact (proj2 (handleAnswerSelect_composes _ 2 3 (str "C") (str "D")) ltac:(lia)).
Defined.

Lemma filter_id_NoDup (x : nat) (qs : list ProcessedQuestion.t) :
  NoDup (map ProcessedQuestion.id qs) ->
  length (List.filter (fun q => Nat.eqb (ProcessedQuestion.id q) x) qs) <= 1.
Proof.
  induction qs as [|q qs IH]; simpl; intros Hnd; [lia|].
  apply NoDup_cons in Hnd as [Hq Hnd]. specialize (IH Hnd).
  destruct (Nat.eqb_spec (ProcessedQuestion.id q) x) as [E|E]; [|exact IH].
  simpl. rewrite filter_none; [simpl; lia|].
  apply List.Forall_forall. intros q' Hq'. apply Nat.eqb_neq. intros E'.
  apply Hq. rewrite E, <- E'. apply list_elem_of_In, in_map, Hq'.
Qed.

(** X8: an answer never lowers the number of answered questions, and
    raises it by at most one when the questions have different ids. *)
Theorem handleAnswerSelect_answered_count (questionId : nat) (answer : jsstring)
        (st : QuizState.t) :
  let qs := QuizSession.questions (QuizState.session st) in
  let qs' := QuizSession.questions
               (QuizState.session (handleAnswerSelect questionId answer st)) in
  length qs' = length qs
  /\ answered_count qs <= answered_count qs'
  /\ (NoDup (map ProcessedQuestion.id qs) -> answered_count qs' <= answered_count qs + 1).
Proof.
  cbv zeta. rewrite handleAnswerSelect_questions.
  set (qs := QuizSession.questions (QuizState.session st)).
  assert (H : answered_count qs
              <= answered_count
                   (map (fun q => if Nat.eqb (ProcessedQuestion.id q) questionId
                                  then with_answer q answer else q) qs)
              <= answered_count qs
                 + length (List.filter
                             (fun q => Nat.eqb (ProcessedQuestion.id q) questionId) qs)).
  { unfold answered_count. induction qs as [|q qs IH]; simpl; [lia|].
    destruct (Nat.eqb (ProcessedQuestion.id q) questionId); simpl;
      destruct (ProcessedQuestion.is_answered q); simpl; lia. }
  split; [apply length_map|]. split; [lia|].
  intros Hnd. pose proof (filter_id_NoDup questionId qs Hnd). lia.
Qed.

Lemma handleAnswerSelect_answered_count_witness :
  let st := startSession (str "a@b.co") three_questions in
  NoDup (map ProcessedQuestion.id (QuizSession.questions (QuizState.session st)))
  /\ answered_count (QuizSession.questions
                       (QuizState.session (handleAnswerSelect 3 (str "D") st)))
     <= answered_count (QuizSession.questions (QuizState.session st)) + 1.
Proof.
  cbv zeta.
  assert (Hnd : NoDup (map ProcessedQuestion.id
                         (QuizSession.questions
                            (QuizState.session (startSession (str "a@b.co") three_questions))))).
  { repeat (constructor; [rewrite !list_elem_of_In; simpl; lia|]). constructor. }
  split; [exact Hnd|].
  exact (proj2 (proj2 (handleAnswerSelect_answered_count 3 (str "D")
                         (startSession (str "a@b.co") three_questions))) Hnd).
Defined.

(** *** What holds all through a quiz *)

Lemma map_id_fixed_part (qs : list ProcessedQuestion.t) :
  map ProcessedQuestion.id qs
  = map (fun t => fst (fst (fst (fst (fst (fst t)))))) (map fixed_part qs).
Proof. rewrite map_map. reflexivity. Qed.

Lemma NoDup_map_inj_on {A C} (f : A -> C) (l : list A) (x y : A) :
  NoDup (map f l) -> In x l -> In y l -> f x = f y -> x = y.
Proof.
  induction l as [|z l IH]; simpl; intros Hnd Hx Hy E; [contradiction|].
  apply NoDup_cons in Hnd as [Hz Hnd].
  destruct Hx as [->|Hx], Hy as [->|Hy]; auto.
  - exfalso. apply Hz. rewrite E. apply list_elem_of_In, in_map, Hy.
  - exfalso. apply Hz. rewrite <- E. apply list_elem_of_In, in_map, Hx.
Qed.

Lemma currentQuestion_In (st : QuizState.t) (q : ProcessedQuestion.t) :
  currentQuestion st = Some q -> In q (QuizSession.questions (QuizState.session st)).
Proof.
  unfold currentQuestion. destruct (_ <? 0)%Z; [discriminate|].
  intros H. apply list_elem_of_In. eapply list_elem_of_lookup_2. exact H.
Qed.

Section Quiz.

Variable processed : list ProcessedQuestion.t.
Hypothesis fresh :
  Forall (fun q => ProcessedQuestion.user_answer q = None
                   /\ ProcessedQuestion.is_answered q = false) processed.
Hypothesis ids_differ : NoDup (map ProcessedQuestion.id processed).

Lemma invariant_start (email : jsstring) :
  session_invariant processed (startSession email processed).
Proof.
  unfold session_invariant, startSession. cbv zeta.
  cbn [QuizState.session QuizState.current_question_index QuizSession.questions
       QuizSession.time_remaining QuizSession.total_questions].
  split; [apply map_index_proj; reflexivity|].
  split.
  { apply map_index_Forall.
    - intros q i Hq. exact Hq.
    - eapply List.Forall_impl; [|exact fresh]. intros q [Hu Ha].
      unfold answer_consistent. rewrite Hu. exact Ha. }
  split; [lia|]. split; [right; reflexivity|]. split; [|split; reflexivity].
  intros q. unfold currentQuestion.
  cbn [QuizState.session QuizState.current_question_index QuizSession.questions].
  cbn [Z.ltb Z.compare]. rewrite map_index_lookup. change (Z.to_nat 0) with 0.
  destruct (processed !! 0); cbn [fmap option_fmap option_map]; [|discriminate].
  intros [= <-]. reflexivity.
Qed.

Lemma invariant_navigate (z : Z) (st : QuizState.t) :
  (0 <= z < Z.of_nat (length (QuizSession.questions (QuizState.session st))))%Z ->
  session_invariant processed st ->
  session_invariant processed (handleQuestionNavigate z st).
Proof.
  intros Hz (Ha & Hb & Hc & Hd & He & Ht & Hn).
  unfold session_invariant, handleQuestionNavigate. cbv zeta.
  cbn [QuizState.session QuizState.current_question_index with_questions
       QuizSession.questions QuizSession.time_remaining QuizSession.total_questions].
  split.
  { rewrite <- Ha. apply map_index_proj. intros q i.
    destruct (Z.of_nat i =? z)%Z; reflexivity. }
  split.
  { apply map_index_Forall; [|exact Hb]. intros q i Hq.
    destruct (Z.of_nat i =? z)%Z; exact Hq. }
  split; [lia|]. split; [left; rewrite map_index_length; lia|].
  split; [|split; assumption].
  intros q. unfold currentQuestion.
  cbn [QuizState.session QuizState.current_question_index with_questions
       QuizSession.questions].
  destruct (Z.ltb_spec z 0); [lia|]. rewrite map_index_lookup.
  destruct (_ !! Z.to_nat z); [|discriminate]. cbn [fmap option_fmap option_map].
  replace (Z.of_nat (0 + Z.to_nat z)) with z by lia. rewrite Z.eqb_refl.
  intros [= <-]. reflexivity.
Qed.

Lemma invariant_choose (q : ProcessedQuestion.t) (chosen : jsstring) (st : QuizState.t) :
  currentQuestion st = Some q -> In chosen (ProcessedQuestion.options q) ->
  session_invariant processed st ->
  session_invariant processed (handleAnswerSelect (ProcessedQuestion.id q) chosen st).
Proof.
  intros Hq Hin (Ha & Hb & Hc & Hd & He & Ht & Hn).
  pose proof (currentQuestion_In st q Hq) as Hqin.
  assert (Hnd : NoDup (map ProcessedQuestion.id (QuizSession.questions (QuizState.session st)))).
  { rewrite map_id_fixed_part, Ha, <- map_id_fixed_part. exact ids_differ. }
  unfold session_invariant. cbv zeta. rewrite handleAnswerSelect_questions.
  cbn [handleAnswerSelect QuizState.session QuizState.current_question_index with_questions
       QuizSession.time_remaining QuizSession.total_questions].
  split.
  { rewrite <- Ha, !map_map. apply map_ext. intros q'.
    destruct (Nat.eqb _ _); reflexivity. }
  split.
  { apply List.Forall_map. rewrite List.Forall_forall in Hb |- *. intros q' Hq'.
    destruct (Nat.eqb_spec (ProcessedQuestion.id q') (ProcessedQuestion.id q)) as [E|E];
      [|apply Hb, Hq'].
    assert (q' = q) by (eapply NoDup_map_inj_on; eassumption). subst q'.
    unfold answer_consistent. cbn [with_answer ProcessedQuestion.user_answer
                                   ProcessedQuestion.is_answered ProcessedQuestion.options].
    auto. }
  split; [exact Hc|]. split; [rewrite length_map; exact Hd|].
  split; [|split; assumption].
  intros q'. unfold currentQuestion.
  cbn [handleAnswerSelect QuizState.session QuizState.current_question_index
       with_questions QuizSession.questions].
  destruct (Z.ltb_spec (QuizState.current_question_index st) 0); [discriminate|].
  change (map ?f ?l) with (f <$> l). rewrite list_lookup_fmap.
  destruct (_ !! _) as [q0|] eqn:E0; [|discriminate]. cbn [fmap option_fmap option_map].
  intros [= <-].
  assert (Hv : ProcessedQuestion.is_visited q0 = true).
  { apply He. unfold currentQuestion.
    destruct (Z.ltb_spec (QuizState.current_question_index st) 0); [lia|]. exact E0. }
  destruct (Nat.eqb _ _); exact Hv.
Qed.

Lemma invariant_step (st st' : QuizState.t) :
  step st st' -> session_invariant processed st -> session_invariant processed st'.
Proof.
  intros Hs Hi. destruct Hs as [st q chosen Hq Hin|st index Hidx|st|st].
  - apply invariant_choose; assumption.
  - apply invariant_navigate; [lia|exact Hi].
  - unfold handleNextQuestion. cbv zeta.
    destruct (Z.ltb_spec (QuizState.current_question_index st + 1)
                (Z.of_nat (length (QuizSession.questions (QuizState.session st)))));
      [|exact Hi].
    apply invariant_navigate; [|exact Hi].
    destruct Hi as (_ & _ & Hc & _). lia.
  - unfold handlePreviousQuestion. cbv zeta.
    destruct (Z.leb_spec 0 (QuizState.current_question_index st - 1)); [|exact Hi].
    apply invariant_navigate; [|exact Hi].
    destruct Hi as (_ & _ & Hc & Hd & _). lia.
Qed.

Lemma invariant_reachable (email : jsstring) (st : QuizState.t) :
  reachable (startSession email processed) st -> session_invariant processed st.
Proof.
  induction 1 as [|st st' _ IH Hs]; [apply invariant_start|].
  eapply invariant_step; eassumption.
Qed.

End Quiz.

Lemma map_indexed_Forall (P : ProcessedQuestion.t -> Prop)
      (qs : list QuizQuestion.t) (k : nat) (g : Rng) :
  (forall q i g', P (fst (processQuestion q i g'))) ->
  Forall P (fst (map_indexed processQuestion k qs g)).
Proof.
  intros HP. revert k g; induction qs as [|q qs IH]; intros k g.
  - constructor.
  - rewrite map_indexed_cons. constructor; [apply HP|apply IH].
Qed.

Lemma processQuizQuestions_ids (raw : list QuizQuestion.t) (g : Rng) :
  map ProcessedQuestion.id (fst (processQuizQuestions raw g)) = seq 1 (length raw).
Proof.
  unfold processQuizQuestions.
  rewrite (map_indexed_field _ (fun i _ => i + 1))
    by (intros; rewrite processQuestion_run; reflexivity).
  rewrite (map_combine_fst (fun i => i + 1)) by apply length_seq.
  rewrite <- seq_shift. apply map_ext. intros; lia.
Qed.

(** X9: all through a quiz, from the session [handleStartQuiz] creates
    over the processed questions and whatever the user chooses, clicks
    or presses, the questions keep their ids 1..N, texts and options, a
    question is flagged answered exactly when it holds an answer and
    that answer is one of its options, the index stays on a question, the
    question on display is marked visited, and the session keeps its
    30-minute budget and its count of 15. *)
Theorem quiz_session_invariant (raw : list QuizQuestion.t) (g : Rng) (email : jsstring)
        (st : QuizState.t) :
  reachable (startSession email (fst (processQuizQuestions raw g))) st ->
  session_invariant (fst (processQuizQuestions raw g)) st
  /\ map ProcessedQuestion.id (QuizSession.questions (QuizState.session st))
     = seq 1 (length raw).
Proof.
  intros Hr.
  assert (Hi : session_invariant (fst (processQuizQuestions raw g)) st).
  { apply (invariant_reachable _) with (email := email); [| |exact Hr].
    - apply map_indexed_Forall. intros q i g'. rewrite processQuestion_run. split; reflexivity.
    - rewrite processQuizQuestions_ids. apply NoDup_ListNoDup, List.seq_NoDup. }
  split; [exact Hi|].
  destruct Hi as (Ha & _).
  rewrite map_id_fixed_part, Ha, <- map_id_fixed_part. apply processQuizQuestions_ids.
Qed.

Lemma quiz_session_invariant_witness :
  let st0 := startSession (str "a@b.co")
               (fst (processQuizQuestions [plain_question; repeated_answer] zero_rng)) in
  let st := handleAnswerSelect 2 (str "Soul") (handleNextQuestion st0) in
  reachable st0 st
  /\ map ProcessedQuestion.id (QuizSession.questions (QuizState.session st)) = [1; 2]
  /\ QuizState.current_question_index st = 1%Z.
Proof.
  cbv zeta.
  set (st0 := startSession (str "a@b.co")
                (fst (processQuizQuestions [plain_question; repeated_answer] zero_rng))).
  assert (Hr : reachable st0 (handleAnswerSelect 2 (str "Soul") (handleNextQuestion st0))).
  { eapply reach_step; [eapply reach_step; [apply reach_start|apply step_next]|].
    assert (Hq : exists q, currentQuestion (handleNextQuestion st0) = Some q
                           /\ ProcessedQuestion.id q = 2
                           /\ In (str "Soul") (ProcessedQuestion.options q)).
    { eexists. split; [vm_compute; reflexivity|]. split; [reflexivity|].
      vm_compute. auto. }
    destruct Hq as (q & Hq & Hid & Hin). rewrite <- Hid.
    apply step_choose; assumption. }
  split; [exact Hr|].
  split; [exact (proj2 (quiz_session_invariant _ _ _ _ Hr))|reflexivity].
Defined.

(** The answer recorded for a consistent question whose options are
    neither empty nor the text [Not answered]. *)
Lemma consistent_result (q : ProcessedQuestion.t) :
  answer_consistent q ->
  Forall (fun o => o <> [] /\ o <> not_answered) (ProcessedQuestion.options q) ->
  recorded_not_answered (questionResult q) = negb (ProcessedQuestion.is_answered q)
  /\ QuestionResult.is_correct (questionResult q)
     = ProcessedQuestion.is_answered q && answer_is_correct q.
Proof.
  unfold answer_consistent, recorded_not_answered, questionResult, answer_is_correct.
  cbn [QuestionResult.user_answer QuestionResult.is_correct].
  intros Hc Ho. destruct (ProcessedQuestion.user_answer q) as [a|].
  - destruct Hc as [-> Hin]. rewrite List.Forall_forall in Ho.
    destruct (Ho a Hin) as [Hne Hns].
    destruct a as [|c a]; [congruence|]. cbn [or_not_answered negb andb].
    split; [apply str_eqb_neq; exact Hns|reflexivity].
  - rewrite Hc. split; reflexivity.
Qed.

Lemma results_counts_consistent (session : QuizSession.t) (now : Z) :
  Forall answer_consistent (QuizSession.questions session) ->
  Forall (fun q => Forall (fun o => o <> [] /\ o <> not_answered)
                          (ProcessedQuestion.options q))
         (QuizSession.questions session) ->
  let qs := QuizSession.questions session in
  let r := createQuizResults session now in
  QuizResults.correct_answers r = correct_count qs
  /\ QuizResults.incorrect_answers r = answered_count qs - correct_count qs
  /\ QuizResults.unanswered_questions r = length qs - answered_count qs
  /\ QuizResults.correct_answers r + QuizResults.incorrect_answers r
     + QuizResults.unanswered_questions r = length qs.
Proof.
  intros Hc Ho. cbv zeta.
  set (qs := QuizSession.questions session).
  assert (H : Forall (fun q =>
                        recorded_not_answered (questionResult q)
                        = negb (ProcessedQuestion.is_answered q)
                        /\ QuestionResult.is_correct (questionResult q)
                           = ProcessedQuestion.is_answered q && answer_is_correct q) qs).
  { apply List.Forall_forall. intros q Hq. rewrite List.Forall_forall in Hc, Ho.
    apply consistent_result; [apply Hc|apply Ho]; exact Hq. }
  assert (Hcorrect : QuizResults.correct_answers (createQuizResults session now)
                     = correct_count qs).
  { unfold createQuizResults, correct_count. cbn [QuizResults.correct_answers].
    fold qs. rewrite filter_map_length. apply filter_ext_length.
    eapply List.Forall_impl; [|exact H]. intros q [_ Hq]. exact Hq. }
  assert (Hun : QuizResults.unanswered_questions (createQuizResults session now)
                = length qs - answered_count qs).
  { unfold createQuizResults, answered_count. cbn [QuizResults.unanswered_questions].
    fold qs. rewrite filter_map_length, <- filter_negb_length. apply filter_ext_length.
    eapply List.Forall_impl; [|exact H]. intros q [Hq _]. exact Hq. }
  pose proof (correct_le_answered qs) as Hle.
  assert (Hal : answered_count qs <= length qs) by apply List.filter_length_le.
  pose proof (three_way_count (map questionResult qs)) as H3.
  assert (Hnone : List.filter
                    (fun r => QuestionResult.is_correct r && recorded_not_answered r)
                    (map questionResult qs) = []).
  { apply filter_none, List.Forall_map. eapply List.Forall_impl; [|exact H].
    intros q [H1 H2]. rewrite H1, H2.
    destruct (ProcessedQuestion.is_answered q), (answer_is_correct q); reflexivity. }
  rewrite Hnone, length_map in H3. simpl in H3.
  assert (Hc' : QuizResults.correct_answers (createQuizResults session now)
                = length (List.filter QuestionResult.is_correct (map questionResult qs)))
    by reflexivity.
  assert (Hu' : QuizResults.unanswered_questions (createQuizResults session now)
                = length (List.filter recorded_not_answered (map questionResult qs)))
    by reflexivity.
  assert (Hi' : QuizResults.incorrect_answers (createQuizResults session now)
                = length (List.filter
                            (fun x => negb (QuestionResult.is_correct x)
                                      && negb (recorded_not_answered x))
                            (map questionResult qs))) by reflexivity.
  lia.
Qed.

(** X10: for a session whose questions are flagged answered exactly when
    they hold an answer, that answer being one of their options, and of
    which no option is empty or the text [Not answered], the counts of
    [createQuizResults] are those behind the score of [calculateScore]:
    [correct_answers] is the number of answered questions answered
    correctly, [incorrect_answers] the number of the other answered ones,
    [unanswered_questions] the number of questions not flagged answered,
    and the three add up to the number of questions. *)
Theorem results_agree_with_score (session : QuizSession.t) (now : Z) :
  Forall answer_consistent (QuizSession.questions session) ->
  Forall (fun q => Forall (fun o => o <> [] /\ o <> not_answered)
                          (ProcessedQuestion.options q))
         (QuizSession.questions session) ->
  let qs := QuizSession.questions session in
  let r := createQuizResults session now in
  QuizResults.correct_answers r = correct_count qs
  /\ QuizResults.incorrect_answers r = answered_count qs - correct_count qs
  /\ QuizResults.unanswered_questions r = length qs - answered_count qs
  /\ QuizResults.correct_answers r + QuizResults.incorrect_answers r
     + QuizResults.unanswered_questions r = length qs.
Proof. apply results_counts_consistent. Qed.

Lemma results_agree_with_score_witness :
  let r := createQuizResults (sample_session three_questions 600) 0 in
  QuizResults.correct_answers r = correct_count three_questions
  /\ QuizResults.unanswered_questions r = 3 - answered_count three_questions.
Proof.
  cbv zeta.
  assert (Hc : Forall answer_consistent
                 (QuizSession.questions (sample_session three_questions 600))).
  { apply List.Forall_forall. intros q [<-|[<-|[<-|[]]]]; vm_compute; auto 10. }
  assert (Ho : Forall (fun q => Forall (fun o => o <> [] /\ o <> not_answered)
                                       (ProcessedQuestion.options q))
                 (QuizSession.questions (sample_session three_questions 600))).
  { repeat constructor; discriminate. }
  destruct (results_agree_with_score (sample_session three_questions 600) 0 Hc Ho)
    as (H1 & _ & H3 & _).
  split; [exact H1|exact H3].
Defined.

(** ** The email form *)

(** A valid email is not empty and holds no white space. *)
Lemma validateEmail_no_space (e : jsstring) :
  validateEmail e = true -> e <> [] /\ Forall (fun c => is_space c = false) e.
Proof.
  unfold validateEmail. rewrite test_anchored_matches. unfold emailRegex. intros H.
  apply matches_cat_inv in H as (l & s1 & -> & Hl & H).
  apply matches_cat_inv in H as (a & s2 & -> & Ha & H).
  apply matches_cat_inv in H as (d & s3 & -> & Hd & H).
  apply matches_cat_inv in H as (f & t & -> & Hf & Ht).
  apply matches_lit in Ha as ->. apply matches_lit in Hf as ->.
  apply matches_plus_cls in Hl as [Hl1 Hl2].
  apply matches_plus_cls in Hd as [_ Hd2].
  apply matches_plus_cls in Ht as [_ Ht2].
  assert (Hcl : forall s, Forall (fun c => not_space_not_at c = true) s ->
                          Forall (fun c => is_space c = false) s).
  { intros s. apply List.Forall_impl. intros c. unfold not_space_not_at.
    rewrite negb_true_iff, orb_false_iff. intros [Hc _]. exact Hc. }
  split; [destruct l; [congruence|discriminate]|].
  repeat (apply Forall_app; split); auto; repeat constructor.
Qed.

Lemma trimStart_spaces (ws s : jsstring) :
  Forall (fun c => is_space c = true) ws -> trimStart (ws ++ s) = trimStart s.
Proof. induction 1 as [|c ws Hc _ IH]; [reflexivity|]. cbn [app trimStart]. rewrite Hc. exact IH. Qed.

Lemma trimStart_no_space (c : char16) (s : jsstring) :
  is_space c = false -> trimStart (c :: s) = c :: s.
Proof. intros H. cbn [trimStart]. rewrite H. reflexivity. Qed.

(** White space around a text that neither starts nor ends with white
    space is what [trim] removes. *)
Lemma trim_around (ws1 ws2 e : jsstring) :
  e <> [] -> Forall (fun c => is_space c = false) e ->
  Forall (fun c => is_space c = true) ws1 -> Forall (fun c => is_space c = true) ws2 ->
  trim (ws1 ++ e ++ ws2) = e.
Proof.
  intros Hne He H1 H2. unfold trim. rewrite trimStart_spaces by exact H1.
  destruct e as [|c e]; [congruence|].
  pose proof (Forall_inv He) as Hc. cbn [app]. rewrite trimStart_no_space by exact Hc.
  change (c :: e ++ ws2) with ((c :: e) ++ ws2). rewrite rev_app_distr.
  rewrite trimStart_spaces by (apply List.Forall_rev; exact H2).
  assert (Hr : exists d r, rev (c :: e) = d :: r /\ is_space d = false).
  { destruct (rev (c :: e)) as [|d r] eqn:E.
    - apply (f_equal (@length _)) in E. rewrite length_rev in E. discriminate.
    - exists d, r. split; [reflexivity|].
      apply List.Forall_rev in He. rewrite E in He. exact (Forall_inv He). }
  destruct Hr as (d & r & Er & Hd). rewrite Er, trimStart_no_space by exact Hd.
  rewrite <- Er. apply rev_involutive.
Qed.

Lemma trim_all_spaces (s : jsstring) :
  Forall (fun c => is_space c = true) s -> trim s = [].
Proof.
  intros H. unfold trim.
  rewrite <- (app_nil_r s), trimStart_spaces by exact H. reflexivity.
Qed.

(** X11: the start page starts the quiz only with an email that passes
    [validateEmail] and holds no white space at all; white space around a
    valid email is dropped, and an input of white space only is answered
    by the request to enter an email. *)
Theorem StartPage_handleStartQuiz_email :
  (forall email e,
      StartPage_handleStartQuiz email = StartQuiz e ->
      e = trim email /\ validateEmail e = true
      /\ Forall (fun c => is_space c = false) e)
  /\ (forall ws1 e ws2,
         validateEmail e = true ->
         Forall (fun c => is_space c = true) ws1 ->
         Forall (fun c => is_space c = true) ws2 ->
         StartPage_handleStartQuiz (ws1 ++ e ++ ws2) = StartQuiz e)
  /\ (forall email,
         Forall (fun c => is_space c = true) email ->
         StartPage_handleStartQuiz email
         = EmailError (str "Please enter your email address")).
Proof.
  split; [|split].
  - intros email e. unfold StartPage_handleStartQuiz. cbv zeta.
    destruct (trim email) as [|c t] eqn:Et; [discriminate|].
    destruct (validateEmail (c :: t)) eqn:Ev; cbn [negb]; [|discriminate].
    intros [= <-]. split; [reflexivity|]. split; [exact Ev|].
    apply validateEmail_no_space, Ev.
  - intros ws1 e ws2 Hv H1 H2. unfold StartPage_handleStartQuiz. cbv zeta.
    destruct (validateEmail_no_space e Hv) as [Hne He].
    rewrite (trim_around ws1 ws2 e Hne He H1 H2), Hv.
    destruct e; [congruence|reflexivity].
  - intros email H. unfold StartPage_handleStartQuiz. cbv zeta.
    rewrite (trim_all_spaces email H). reflexivity.
Qed.

Lemma StartPage_handleStartQuiz_email_witness :
  StartPage_handleStartQuiz (str "  a@b.co ") = StartQuiz (str "a@b.co")
  /\ StartPage_handleStartQuiz (str "   ") = EmailError (str "Please enter your email address")
  /\ StartPage_handleStartQuiz (str "a b@c.com")
     = EmailError (str "Please enter a valid email address").
Proof.
  destruct StartPage_handleStartQuiz_email as (_ & H2 & H3).
  split; [|split].
  - apply (H2 (str "  ") (str "a@b.co") (str " ")).
    + reflexivity.
    + repeat constructor.
    + repeat constructor.
  - apply H3. repeat constructor.
  - reflexivity.
Defined.

(** ** Fetching the questions *)

Lemma fetch_try_success (outcome : fetch_outcome) (results : list QuizQuestion.t) :
  fetch_try outcome = inr results
  <-> exists status, outcome = FetchResponds true status (JsonData 0 results).
Proof.
  split.
  - destruct outcome as [e|[|] status [e|[|code] rs]]; simpl; try discriminate.
    intros [= ->]. exists status. reflexivity.
  - intros [status ->]. reflexivity.
Qed.

(** X12: [fetchQuizQuestions] returns questions exactly when the
    response is ok and carries [response_code] 0, and then they are
    [processQuizQuestions] of all the results received; every other
    outcome is an [ApiError], drawn without touching the random source,
    which for a response that is not ok or a [response_code] other than 0
    has the code 500 and names the status or the response code in its
    message. *)
Theorem fetchQuizQuestions_outcomes (outcome : fetch_outcome) (g : Rng) :
  (forall questions,
      fst (fetchQuizQuestions outcome g) = inr questions
      <-> exists status results,
            outcome = FetchResponds true status (JsonData 0 results)
            /\ questions = fst (processQuizQuestions results g))
  /\ (forall err,
         fst (fetchQuizQuestions outcome g) = inl err ->
         snd (fetchQuizQuestions outcome g) = g)
  /\ (forall status json,
         outcome = FetchResponds false status json ->
         exists details,
           fst (fetchQuizQuestions outcome g)
           = inl {| ApiError.message := str "HTTP error! status: " ++ Number_toString status;
                    ApiError.code := 500;
                    ApiError.details := details |})
  /\ (forall status response_code results,
         outcome = FetchResponds true status (JsonData response_code results) ->
         response_code <> 0 ->
         exists details,
           fst (fetchQuizQuestions outcome g)
           = inl {| ApiError.message :=
                      str "API error! response_code: " ++ Number_toString response_code;
                    ApiError.code := 500;
                    ApiError.details := details |}).
Proof.
  unfold fetchQuizQuestions. split; [|split; [|split]].
  - intros questions. destruct (fetch_try outcome) as [e|results] eqn:E.
    + split; [discriminate|]. intros (status & results & -> & _). discriminate.
    + rewrite bind_run. cbn [ret fst]. apply fetch_try_success in E as [status ->]. split.
      * intros [= <-]. exists status, results. auto.
      * intros (status' & results' & [= _ <-] & ->). reflexivity.
  - intros err. destruct (fetch_try outcome) as [e|results]; [reflexivity|].
    rewrite bind_run. discriminate.
  - intros status json ->. eexists. reflexivity.
  - intros status code results -> Hc. destruct code as [|code]; [congruence|].
    eexists. reflexivity.
Qed.

Lemma fetchQuizQuestions_outcomes_witness :
  fst (fetchQuizQuestions (FetchResponds true 200 (JsonData 0 [plain_question])) zero_rng)
  = inr (fst (processQuizQuestions [plain_question] zero_rng))
  /\ exists details,
       fst (fetchQuizQuestions (FetchResponds true 200 (JsonData 1 [])) zero_rng)
       = inl {| ApiError.message := str "API error! response_code: 1";
                ApiError.code := 500;
                ApiError.details := details |}.
Proof.
  split.
  - apply (proj1 (fetchQuizQuestions_outcomes _ zero_rng)). eauto.
  - destruct (fetchQuizQuestions_outcomes (FetchResponds true 200 (JsonData 1 [])) zero_rng)
      as (_ & _ & _ & H).
    apply (H 200 1 [] eq_refl). discriminate.
Defined.

(** ** The length of decoded text *)

Lemma scan_length_aux (rules : list rule) (n : nat) (s : jsstring) :
  (forall p r, In (p, r) rules -> p <> [] /\ length r <= length p) ->
  length s < n -> length (scan rules 0 s) <= length s.
Proof.
  intros Hr. revert s; induction n as [|n IH]; intros s Hn; [lia|].
  destruct s as [|c s]; [simpl; lia|].
  destruct (find_rule rules (c :: s)) as [[p r]|] eqn:Hf.
  - pose proof (find_rule_In _ _ _ _ Hf) as [Hin Hp].
    destruct (Hr p r Hin) as [Hne Hlen].
    pose proof (prefixb_split p _ Hp) as Hsplit.
    set (t := drop (length p) (c :: s)) in *.
    assert (Hl : length (c :: s) = length p + length t)
      by (rewrite Hsplit at 1; apply length_app).
    rewrite Hsplit in Hf |- *. rewrite (scan_match _ _ _ _ Hne Hf), !length_app.
    assert (Hp0 : 0 < length p) by (destruct p; [congruence|simpl; lia]).
    specialize (IH t ltac:(lia)). lia.
  - rewrite (scan_copy _ _ _ Hf). cbn [length]. simpl in Hn. specialize (IH s ltac:(lia)). lia.
Qed.

Lemma replace_chain_length (rules : list rule) (s : jsstring) :
  (forall p r, In (p, r) rules -> p <> [] /\ length r <= length p) ->
  length (replace_chain rules s) <= length s.
Proof.
  revert s; induction rules as [|[p r] rules IH]; intros s Hr; [reflexivity|].
  rewrite replace_chain_cons.
  etransitivity; [apply IH; intros p' r' Hin; apply Hr; right; exact Hin|].
  unfold replace_all. apply (scan_length_aux [(p, r)] (S (length s))); [|lia].
  intros p' r' [[= <- <-]|[]]. apply Hr. left. reflexivity.
Qed.

(** X13: decoding never makes a text longer, so no field of a processed
    question is longer than the field it was decoded from. *)
Theorem decodeHtmlEntities_length (text : jsstring) :
  length (decodeHtmlEntities text) <= length text.
Proof.
  rewrite decodeHtmlEntities_chain. apply replace_chain_length.
  intros p r Hin.
  assert (H : forallb (fun pr => negb (Nat.eqb (length (fst pr)) 0)
                                 && Nat.leb (length (snd pr)) (length (fst pr)))
                      entity_table = true) by (vm_compute; reflexivity).
  rewrite forallb_forall in H. specialize (H _ Hin). cbn [fst snd] in H.
  apply andb_true_iff in H as [H1 H2]. apply negb_true_iff, Nat.eqb_neq in H1.
  apply Nat.leb_le in H2. split; [|exact H2]. intros ->. apply H1. reflexivity.
Qed.

(** ** From the raw questions to the results *)

Lemma Forall2_Forall_transfer {A B} (R : A -> B -> Prop) (P : A -> Prop) (Q : B -> Prop)
      (l : list A) (k : list B) :
  (forall x y, R x y -> P x -> Q y) -> Forall2 R l k -> Forall P l -> Forall Q k.
Proof.
  intros H HR. induction HR as [|x y l k Hxy _ IH]; intros HP; constructor.
  - eapply H; [exact Hxy|]. exact (Forall_inv HP).
  - apply IH. exact (Forall_inv_tail HP).
Qed.

Lemma map_options_fixed_part (qs : list ProcessedQuestion.t) :
  map ProcessedQuestion.options qs = map (fun t => snd t) (map fixed_part qs).
Proof. rewrite map_map. reflexivity. Qed.

(** X14: when no decoded answer of the raw questions is empty or the
    text [Not answered], then at every moment of a quiz over them,
    whatever the user has chosen, clicked or pressed, the results of
    [createQuizResults] agree with the counts behind the score:
    [correct_answers] and [incorrect_answers] split the answered
    questions, [unanswered_questions] counts the others, and the three add
    up to the number of raw questions. *)
Theorem quiz_results_consistent (raw : list QuizQuestion.t) (g : Rng) (email : jsstring)
        (st : QuizState.t) (now : Z) :
  Forall (fun q => Forall (fun o => o <> [] /\ o <> not_answered) (unshuffled_options q)) raw ->
  reachable (startSession email (fst (processQuizQuestions raw g))) st ->
  let qs := QuizSession.questions (QuizState.session st) in
  let r := createQuizResults (QuizState.session st) now in
  QuizResults.correct_answers r = correct_count qs
  /\ QuizResults.incorrect_answers r = answered_count qs - correct_count qs
  /\ QuizResults.unanswered_questions r = length raw - answered_count qs
  /\ QuizResults.correct_answers r + QuizResults.incorrect_answers r
     + QuizResults.unanswered_questions r = length raw.
Proof.
  intros Hraw Hr. cbv zeta.
  assert (Hi : session_invariant (fst (processQuizQuestions raw g)) st).
  { apply (invariant_reachable _) with (email := email); [| |exact Hr].
    - apply map_indexed_Forall. intros q i g'. rewrite processQuestion_run. split; reflexivity.
    - rewrite processQuizQuestions_ids. apply NoDup_ListNoDup, List.seq_NoDup. }
  destruct Hi as (Ha & Hb & _).
  assert (Hlen : length (QuizSession.questions (QuizState.session st)) = length raw).
  { rewrite <- (length_map fixed_part), Ha, length_map. apply map_indexed_length. }
  assert (Ho : Forall (fun q => Forall (fun o => o <> [] /\ o <> not_answered)
                                       (ProcessedQuestion.options q))
                 (QuizSession.questions (QuizState.session st))).
  { apply (List.Forall_map ProcessedQuestion.options
             (fun os => Forall (fun o => o <> [] /\ o <> not_answered) os)).
    rewrite map_options_fixed_part, Ha, <- map_options_fixed_part.
    apply List.Forall_map.
    apply (Forall2_Forall_transfer
             (fun q p => ProcessedQuestion.options p ≡ₚ unshuffled_options q)
             (fun q => Forall (fun o => o <> [] /\ o <> not_answered) (unshuffled_options q))
             _ raw); [| |exact Hraw].
    - intros q p Hp Hq. eapply Permutation_Forall; [symmetry; exact Hp|exact Hq].
    - apply map_indexed_Forall2. intros q i g'. apply (processQuestion_options q i g'). }
  rewrite <- Hlen. apply results_counts_consistent; assumption.
Qed.

Lemma quiz_results_consistent_witness :
  let raw := [plain_question; sample_raw (str "Yes") [str "No"]] in
  let st0 := startSession (str "a@b.co") (fst (processQuizQuestions raw zero_rng)) in
  let r := createQuizResults (QuizState.session (handleNextQuestion st0)) 0 in
  QuizResults.correct_answers r + QuizResults.incorrect_answers r
  + QuizResults.unanswered_questions r = 2.
Proof.
  cbv zeta.
  refine (proj2 (proj2 (proj2
            (quiz_results_consistent
               [plain_question; sample_raw (str "Yes") [str "No"]] zero_rng (str "a@b.co")
               _ 0 _ _)))).
  - repeat constructor; vm_compute; discriminate.
  - eapply reach_step; [apply reach_start|apply step_next].
Defined.

(** ** The extremes of the score *)

Lemma sf_eqb_of_Z (x : spec_float) (z : Z) :
  (0 <= z <= 100)%Z -> (sf_eqb x (JsNumber.of_Z z) = true <-> x = JsNumber.of_Z z).
Proof.
  intros Hz. split; [apply sf_eqb_eq|]. intros ->.
  destruct (JsNumber.of_Z z) as [b| | |b m e] eqn:E; simpl.
  - destruct b; reflexivity.
  - exfalso. revert E.
    assert (H : forallb (fun k => match JsNumber.of_Z (Z.of_nat k) with
                                  | S754_zero _ | S754_finite _ _ _ => true
                                  | _ => false
                                  end) (seq 0 101) = true) by (vm_compute; reflexivity).
    rewrite forallb_forall in H. specialize (H (Z.to_nat z)).
    rewrite Z2Nat.id in H by lia. intros E. rewrite E in H.
    assert (Hin : In (Z.to_nat z) (seq 0 101)) by (apply in_seq; lia).
    specialize (H Hin). discriminate.
  - exfalso. revert E.
    assert (H : forallb (fun k => match JsNumber.of_Z (Z.of_nat k) with
                                  | S754_zero _ | S754_finite _ _ _ => true
                                  | _ => false
                                  end) (seq 0 101) = true) by (vm_compute; reflexivity).
    rewrite forallb_forall in H. specialize (H (Z.to_nat z)).
    rewrite Z2Nat.id in H by lia. intros E. rewrite E in H.
    assert (Hin : In (Z.to_nat z) (seq 0 101)) by (apply in_seq; lia).
    specialize (H Hin). discriminate.
  - rewrite Bool.eqb_reflx, Pos.eqb_refl, Z.eqb_refl. reflexivity.
Qed.

Lemma score_extremes_below_40 : score_extremes_below 40 = true.
Proof. vm_compute. reflexivity. Qed.

(** X15: with fewer than forty answered questions (at least one), the
    score is 100 exactly when every answered question is answered
    correctly, and 0 exactly when none is. *)
Theorem calculateScore_extremes (qs : list ProcessedQuestion.t) :
  0 < answered_count qs < 40 ->
  (calculateScore qs = JsNumber.of_Z 100 <-> correct_count qs = answered_count qs)
  /\ (calculateScore qs = JsNumber.of_Z 0 <-> correct_count qs = 0).
Proof.
  intros Ha. rewrite calculateScore_counts.
  pose proof (correct_le_answered qs) as Hc.
  pose proof score_extremes_below_40 as H. unfold score_extremes_below in H.
  rewrite forallb_forall in H.
  assert (Hin : In (answered_count qs) (seq 1 (40 - 1))) by (apply in_seq; simpl; lia).
  specialize (H _ Hin). rewrite forallb_forall in H.
  assert (Hin' : In (correct_count qs) (seq 0 (S (answered_count qs)))) by (apply in_seq; lia).
  specialize (H _ Hin'). apply andb_true_iff in H as [H1 H2].
  apply Bool.eqb_prop in H1, H2.
  rewrite <- (sf_eqb_of_Z _ 100), <- (sf_eqb_of_Z _ 0), H1, H2, !Nat.eqb_eq by lia.
  split; reflexivity.
Qed.

Lemma calculateScore_extremes_witness :
  0 < answered_count three_questions < 40
  /\ calculateScore three_questions <> JsNumber.of_Z 100
  /\ calculateScore three_questions <> JsNumber.of_Z 0.
Proof.
  assert (H : 0 < answered_count three_questions < 40) by (vm_compute; lia).
  destruct (calculateScore_extremes three_questions H) as [H1 H2].
  split; [exact H|]. split.
  - intros E. apply H1 in E. vm_compute in E. discriminate.
  - intros E. apply H2 in E. vm_compute in E. discriminate.
Defined.
